(** * dss_crop_server: the resilient fetch layer and the response extractor

    A shallow embedding of the price route of the crop service
    (the route file with [fetchWithBackoff], and [index.js]) together with
    the properties its specification states about retry, backoff and the
    recovery of a JSON object from the text the model returns.

    Conventions of the embedding
    - a JavaScript string is the list of its UTF-16 code units;
    - a JavaScript number that the program computes with is an integer
      ([Z]) where the source counts (attempts, status codes, indices) and
      a rational ([Q]) where it measures: the value of a finite double
      for a delay, every operation on delays being rounded to the
      nearest double ([Double.binary64]); the rational a literal writes
      for a parsed JSON number;
    - [async] code runs sequentially inside one request, so a promise is
      modelled by the computation that produces its value: a state and
      exception monad over a [World] that records every effect in order;
    - what the environment decides (what the upstream answers to the n-th
      request, what [Math.random] returns on its n-th call, whether the
      engine can serialise a value that came from the upstream, the text
      of the messages it puts into its own errors) is a parameter. *)

From Stdlib Require Import ZArith QArith Qround Qabs Qpower.
From Stdlib Require Import List String Ascii Bool Lia Lqa.
From Stdlib Require Import Floats.SpecFloat.
From Stdlib Require Import DecimalString.
From Equations Require Import Equations.
Import ListNotations.

Local Open Scope Z_scope.
#[local] Set Warnings "-register-all".

(** ** Strings *)

Definition jsstring := list N.

Fixpoint js (s : string) : jsstring :=
  match s with
  | EmptyString => []
  | String c s' => N_of_ascii c :: js s'
  end.

(** [String(n)] for an integer [n]. *)
Definition decimal (n : Z) : jsstring :=
  js (NilZero.string_of_int (Z.to_int n)).

(** ** Numbers: the arithmetic of doubles

    IEEE 754 binary64 with the default rounding: the result of an
    operation is the double nearest to the exact result, the one with an
    even significand when two are equally near.  A finite double is the
    rational [n * 2^q] with [|n| < 2^53] and [q >= -1074]; results
    beyond the largest double (infinities) are outside the model. *)

Module Double.

Definition pow2 (e : Z) : Q := (2 ^ e)%Q.

(** The integer part of the binary logarithm of a positive number. *)
Definition ilog2 (x : Q) : Z :=
  let d := Z.log2 (Qnum x) - Z.log2 (Z.pos (Qden x)) in
  if Qle_bool (pow2 d) x then d else d - 1.

(** The nearest integer, the even one of two that are equally near. *)
Definition rne (x : Q) : Z :=
  let f := Qfloor x in
  match (x - inject_Z f ?= 1 # 2)%Q with
  | Lt => f
  | Gt => f + 1
  | Eq => if Z.even f then f else f + 1
  end.

(** The exponent of the last place of a positive number: 52 binary
    places below its leading bit, and not below the subnormal range. *)
Definition qexp (x : Q) : Z := Z.max (ilog2 x - 52) (-1074).

(** The significand of a positive number, rounded to an integer. *)
Definition mant (x : Q) : Z := rne (x * pow2 (- qexp x)).

(** The double nearest to [x]. *)
Definition binary64 (x : Q) : Q :=
  match Qnum x with
  | 0 => 0%Q
  | _ =>
      let a := Qabs x in
      Qred (inject_Z (Z.sgn (Qnum x) * mant a) * pow2 (qexp a))
  end.

Arguments binary64 : simpl never.

(** The value of a finite float of the reference implementation of the
    Standard Library. *)
Definition valueOf (f : spec_float) : Q :=
  match f with
  | S754_finite s m e =>
      Qred (inject_Z (if s then Z.neg m else Z.pos m) * pow2 e)
  | _ => 0%Q
  end.

Definition ofZ (z : Z) : spec_float := binary_normalize 53 1024 z 0 false.

End Double.

(** ** Values *)

Inductive JSValue :=
| JUndefined
| JNull
| JBool (b : bool)
| JNum (q : Q)
| JStr (s : jsstring)
| JArr (items : list JSValue)
| JObj (props : list (jsstring * JSValue)).

(** ** Errors *)

Inductive ErrorName := EError | ETypeError | ESyntaxError | ERangeError.

Record Error := mkError { name : ErrorName; message : jsstring }.

(** [new Error(m)] *)
Definition new_Error (m : jsstring) : Error := mkError EError m.

(** ** Responses of the Fetch API

    [ok] is the getter of the Fetch standard: true exactly for a status
    in the range 200 to 299.  [json] is the outcome of [response.json()]. *)

Record Response := mkResponse {
  status : Z;
  statusText : jsstring;
  json : Error + JSValue
}.

Definition ok (r : Response) : bool :=
  (200 <=? status r) && (status r <=? 299).

(** ** The world: every observable effect, in order *)

Record Request := mkRequest { url : jsstring; userQuery : jsstring }.

Inductive Level := LLog | LWarn | LError.

Inductive Event :=
| EvFetch (req : Request)
| EvGenerate (model contents : jsstring)
| EvSleep (ms : Q)
| EvConsole (lvl : Level) (args : list JSValue).

Record World := mkWorld {
  fetched : nat;        (* requests issued so far *)
  drawn : nat;          (* calls of Math.random so far *)
  events : list Event   (* oldest first *)
}.

Definition initial : World := mkWorld 0 0 [].

(** ** The monad of effectful code: state and exceptions *)

Definition M (A : Type) : Type := World -> (Error + A) * World.

Definition ret {A} (a : A) : M A := fun w => (inr a, w).

Definition throw {A} (e : Error) : M A := fun w => (inl e, w).

Definition bind {A B} (m : M A) (k : A -> M B) : M B :=
  fun w =>
    match m w with
    | (inr a, w') => k a w'
    | (inl e, w') => (inl e, w')
    end.

(** [try { m } catch (error) { h error }] *)
Definition catch {A} (m : M A) (h : Error -> M A) : M A :=
  fun w =>
    match m w with
    | (inr a, w') => (inr a, w')
    | (inl e, w') => h e w'
    end.

Notation "x <- m ;; k" := (bind m (fun x => k))
  (at level 61, m at next level, right associativity).
Notation "m ;;; k" := (bind m (fun _ => k))
  (at level 61, right associativity).

(** Awaiting a promise that is already settled. *)
Definition settle {A} (o : Error + A) : M A := fun w => (o, w).

Definition emit (e : Event) : M unit :=
  fun w => (inr tt, mkWorld (fetched w) (drawn w) (events w ++ [e])).

Definition console (lvl : Level) (args : list JSValue) : M unit :=
  emit (EvConsole lvl args).

(** [await new Promise(resolve => setTimeout(resolve, ms))] *)
Definition sleep (ms : Q) : M unit := emit (EvSleep ms).

(** ** Counting effects in a trace *)

Definition is_fetch (e : Event) : bool :=
  match e with EvFetch _ => true | _ => false end.

Definition sleeps (t : list Event) : list Q :=
  flat_map (fun e => match e with EvSleep d => [d] | _ => [] end) t.

Definition attempts (t : list Event) : nat :=
  List.length (filter is_fetch t).

(** ** The resilient caller *)

Section Caller.

(** What the upstream does on the n-th request (counted from 0): the
    promise rejects with a transport error or resolves to a response. *)
Variable upstream : nat -> Error + Response.

(** The value of the n-th call of [Math.random]. *)
Variable random : nat -> Q.

Definition fetch (req : Request) : M Response :=
  fun w =>
    (upstream (fetched w),
     mkWorld (S (fetched w)) (drawn w) (events w ++ [EvFetch req])).

Definition Math_random : M Q :=
  fun w => (inr (random (drawn w)),
            mkWorld (fetched w) (S (drawn w)) (events w)).

Definition exhausted : Error :=
  new_Error (js "Failed to fetch from AI service after maximum retries.").

Definition clientError (r : Response) : Error :=
  new_Error (js "Client error: " ++ decimal (status r) ++ js " "
             ++ statusText r).

Definition rateLimitedWarning : jsstring :=
  js "Rate limited. Retrying with backoff...".

Definition serverWarning (r : Response) : jsstring :=
  js "Server error: " ++ decimal (status r) ++ js ". Retrying with backoff...".

Definition retryWarning (attempt : Z) (error : Error) : jsstring :=
  js "Fetch attempt " ++ decimal (attempt + 1) ++ js " failed with error: "
  ++ message error ++ js ". Retrying...".

(** The body of the [try] block of one iteration.  [Some response] is
    [return response]; [None] is falling out of the block. *)
Definition attemptOnce (fetchFn : M Response) : M (option Response) :=
  response <- fetchFn ;;
  if ok response then ret (Some response)
  else if (status response >=? 400) && (status response <? 500)
  then throw (clientError response)
  else
    (if status response =? 429
     then console LWarn [JStr rateLimitedWarning]
     else console LWarn [JStr (serverWarning response)]) ;;;
    ret None.

(** The [catch] block of one iteration. *)
Definition attemptFailed (attempt : Z) (error : Error)
  : M (option Response) :=
  console LWarn [JStr (retryWarning attempt error)] ;;;
  ret None.

(** [baseDelay * Math.pow(2, attempt) + (Math.random() * 1000)]: the
    power is exact, each of the two products and the sum is rounded. *)
Definition backoffDelay (baseDelay attempt : Z) : M Q :=
  r <- Math_random ;;
  ret (Double.binary64
         (Double.binary64 (inject_Z (baseDelay * 2 ^ attempt))
          + Double.binary64 (r * 1000)))%Q.

(** The [while] loop, entered with the current value of [attempt],
    followed by the final [throw]. *)
Equations? backoffLoop (fetchFn : M Response) (maxRetries baseDelay : Z)
  (attempt : Z) : M Response by wf (Z.to_nat (maxRetries - attempt)) lt :=
backoffLoop fetchFn maxRetries baseDelay attempt
  with Z_lt_dec attempt maxRetries => {
  | left _ =>
      r <- catch (attemptOnce fetchFn) (attemptFailed attempt) ;;
      match r with
      | Some response => ret response
      | None =>
          if attempt =? maxRetries - 1 then throw exhausted
          else
            delay <- backoffDelay baseDelay attempt ;;
            sleep delay ;;;
            backoffLoop fetchFn maxRetries baseDelay (attempt + 1)
      end
  | right _ => throw exhausted }.
Proof. lia. Qed.

(** [fetchWithBackoff(fetchFn, maxRetries = 5, baseDelay = 1000)]:
    an argument that is not passed is [None]. *)
Definition fetchWithBackoff (fetchFn : M Response)
  (maxRetries baseDelay : option Z) : M Response :=
  backoffLoop fetchFn
    (match maxRetries with Some n => n | None => 5 end)
    (match baseDelay with Some d => d | None => 1000 end)
    0.

End Caller.

(** ** [JSON.parse]

    The grammar of ECMA-404 as [JSON.parse] accepts it, over code units.
    A number literal denotes the rational it writes; an object keeps one
    property per key, in the order of first insertion, a later duplicate
    replacing the value (the reordering of integer-like keys is not
    modelled). *)

Module JSON.

Local Open Scope N_scope.

Definition is_ws (c : N) : bool :=
  (c =? 32) || (c =? 9) || (c =? 10) || (c =? 13).

Fixpoint skip_ws (s : jsstring) : jsstring :=
  match s with
  | c :: r => if is_ws c then skip_ws r else s
  | [] => []
  end.

Definition is_digit (c : N) : bool := (48 <=? c) && (c <=? 57).

Definition hex (c : N) : option N :=
  if (48 <=? c) && (c <=? 57) then Some (c - 48)
  else if (97 <=? c) && (c <=? 102) then Some (c - 87)
  else if (65 <=? c) && (c <=? 70) then Some (c - 55)
  else None.

Definition hex4 (a b c d : N) : option N :=
  match hex a, hex b, hex c, hex d with
  | Some x, Some y, Some z, Some t => Some (((x * 16 + y) * 16 + z) * 16 + t)
  | _, _, _, _ => None
  end.

(** The character a single-letter escape stands for. *)
Definition escape (c : N) : option N :=
  if c =? 34 then Some 34          (* quote *)
  else if c =? 92 then Some 92     (* backslash *)
  else if c =? 47 then Some 47     (* slash *)
  else if c =? 98 then Some 8      (* b: backspace *)
  else if c =? 102 then Some 12    (* f: form feed *)
  else if c =? 110 then Some 10    (* n: line feed *)
  else if c =? 114 then Some 13    (* r: carriage return *)
  else if c =? 116 then Some 9     (* t: tab *)
  else None.

(** The characters of a string after its opening quote, up to and
    including the closing one. [acc] is what was read, newest first. *)
Fixpoint string_body (s acc : jsstring) : option (jsstring * jsstring) :=
  match s with
  | [] => None
  | c :: r =>
      if c =? 34 then Some (rev acc, r)
      else if c =? 92 then
        match r with
        | [] => None
        | e :: r1 =>
            if e =? 117 then
              match r1 with
              | h1 :: h2 :: h3 :: h4 :: r2 =>
                  match hex4 h1 h2 h3 h4 with
                  | Some u => string_body r2 (u :: acc)
                  | None => None
                  end
              | _ => None
              end
            else
              match escape e with
              | Some x => string_body r1 (x :: acc)
              | None => None
              end
        end
      else if c <? 32 then None
      else string_body r (c :: acc)
  end.

(** A maximal run of digits: its value on top of [acc], how many digits
    were read, and the rest. *)
Fixpoint digits (s : jsstring) (acc : Z) (n : Z) : Z * Z * jsstring :=
  match s with
  | c :: r =>
      if is_digit c
      then digits r (acc * 10 + (Z.of_N c - 48))%Z (n + 1)%Z
      else (acc, n, s)
  | [] => (acc, n, s)
  end.

(** [int], without the sign: a single 0, or a run that starts with a
    digit from 1 to 9. *)
Definition int_part (s : jsstring) : option (Z * jsstring) :=
  match s with
  | c :: r =>
      if c =? 48 then Some (0%Z, r)
      else if is_digit c then
        let '(v, _, r') := digits s 0%Z 0%Z in Some (v, r')
      else None
  | [] => None
  end.

(** [frac]: the mantissa extended by the digits after the point, and
    their number. *)
Definition frac_part (m : Z) (s : jsstring) : option (Z * Z * jsstring) :=
  match s with
  | c :: r =>
      if c =? 46 then
        let '(v, n, r') := digits r m 0%Z in
        if (n =? 0)%Z then None else Some (v, n, r')
      else Some (m, 0%Z, s)
  | [] => Some (m, 0%Z, s)
  end.

Definition exp_digits (neg : bool) (s : jsstring) : option (Z * jsstring) :=
  let '(v, n, r) := digits s 0%Z 0%Z in
  if (n =? 0)%Z then None else Some (if neg then (- v)%Z else v, r).

Definition exp_part (s : jsstring) : option (Z * jsstring) :=
  match s with
  | c :: r =>
      if (c =? 101) || (c =? 69) then
        match r with
        | sg :: r' =>
            if sg =? 43 then exp_digits false r'
            else if sg =? 45 then exp_digits true r'
            else exp_digits false r
        | [] => None
        end
      else Some (0%Z, s)
  | [] => Some (0%Z, s)
  end.

(** The rational [m * 10^e], in lowest terms. *)
Definition scale (m e : Z) : Q :=
  Qred (if (0 <=? e)%Z
        then inject_Z (m * 10 ^ e)
        else Qmake m (Z.to_pos (10 ^ (- e)))).

Definition number (s : jsstring) : option (Q * jsstring) :=
  let '(neg, s1) :=
    match s with
    | c :: r => if c =? 45 then (true, r) else (false, s)
    | [] => (false, s)
    end in
  match int_part s1 with
  | None => None
  | Some (i, s2) =>
      match frac_part i s2 with
      | None => None
      | Some (m, n, s3) =>
          match exp_part s3 with
          | None => None
          | Some (e, s4) =>
              Some (scale (if neg then (- m)%Z else m) (e - n)%Z, s4)
          end
      end
  end.

(** [s] starts with the code units of [w]: the rest of [s]. *)
Fixpoint keyword (w s : jsstring) : option jsstring :=
  match w, s with
  | [], _ => Some s
  | a :: w', b :: s' => if a =? b then keyword w' s' else None
  | _ :: _, [] => None
  end.

Definition jsstring_eqb (a b : jsstring) : bool :=
  if list_eq_dec N.eq_dec a b then true else false.

(** Defining property [k] on an object under construction. *)
Fixpoint define (k : jsstring) (v : JSValue)
  (props : list (jsstring * JSValue)) : list (jsstring * JSValue) :=
  match props with
  | [] => [(k, v)]
  | (k', v') :: rest =>
      if jsstring_eqb k k' then (k', v) :: rest
      else (k', v') :: define k v rest
  end.

Fixpoint value (fuel : nat) (s : jsstring) : option (JSValue * jsstring) :=
  match fuel with
  | O => None
  | S fuel =>
      match skip_ws s with
      | [] => None
      | c :: r =>
          if c =? 123 then
            match skip_ws r with
            | c' :: r' =>
                if c' =? 125 then Some (JObj [], r') else members fuel r []
            | [] => None
            end
          else if c =? 91 then
            match skip_ws r with
            | c' :: r' =>
                if c' =? 93 then Some (JArr [], r') else elements fuel r []
            | [] => None
            end
          else if c =? 34 then
            match string_body r [] with
            | Some (str, r') => Some (JStr str, r')
            | None => None
            end
          else if c =? 116 then
            option_map (pair (JBool true)) (keyword (js "true") (c :: r))
          else if c =? 102 then
            option_map (pair (JBool false)) (keyword (js "false") (c :: r))
          else if c =? 110 then
            option_map (pair JNull) (keyword (js "null") (c :: r))
          else
            match number (c :: r) with
            | Some (q, r') => Some (JNum q, r')
            | None => None
            end
      end
  end

with elements (fuel : nat) (s : jsstring) (acc : list JSValue)
  : option (JSValue * jsstring) :=
  match fuel with
  | O => None
  | S fuel =>
      match value fuel s with
      | None => None
      | Some (v, r) =>
          match skip_ws r with
          | c :: r' =>
              if c =? 44 then elements fuel r' (v :: acc)
              else if c =? 93 then Some (JArr (rev (v :: acc)), r')
              else None
          | [] => None
          end
      end
  end

with members (fuel : nat) (s : jsstring) (acc : list (jsstring * JSValue))
  : option (JSValue * jsstring) :=
  match fuel with
  | O => None
  | S fuel =>
      match skip_ws s with
      | c :: r =>
          if c =? 34 then
            match string_body r [] with
            | None => None
            | Some (k, r1) =>
                match skip_ws r1 with
                | c1 :: r2 =>
                    if c1 =? 58 then
                      match value fuel r2 with
                      | None => None
                      | Some (v, r3) =>
                          match skip_ws r3 with
                          | c3 :: r4 =>
                              if c3 =? 44
                              then members fuel r4 (define k v acc)
                              else if c3 =? 125
                              then Some (JObj (define k v acc), r4)
                              else None
                          | [] => None
                          end
                      end
                    else None
                | [] => None
                end
            end
          else None
      | [] => None
      end
  end.

(** The whole text is one value between optional white space.  The
    fuel is enough for every text: a call that spends fuel is paid for by
    a code unit it consumes, at most two calls for one unit (see
    [parse_fuel_enough]). *)
Definition parse (s : jsstring) : option JSValue :=
  match value (2 * List.length s + 2) s with
  | Some (v, r) =>
      match skip_ws r with
      | [] => Some v
      | _ :: _ => None
      end
  | None => None
  end.

End JSON.

(** ** Strings and arrays: searching and slicing *)

(** The index of the first element that satisfies [p], or -1. *)
Fixpoint firstIndex {A} (p : A -> bool) (l : list A) : Z :=
  match l with
  | [] => -1
  | x :: r =>
      if p x then 0
      else let i := firstIndex p r in if i =? -1 then -1 else i + 1
  end.

(** The index of the last element that satisfies [p], or -1. *)
Fixpoint lastIndex {A} (p : A -> bool) (l : list A) : Z :=
  match l with
  | [] => -1
  | x :: r =>
      let i := lastIndex p r in
      if i =? -1 then (if p x then 0 else -1) else i + 1
  end.

(** [s.indexOf(c)] and [s.lastIndexOf(c)] for a string [c] of one code
    unit. *)
Definition indexOf (s : jsstring) (c : N) : Z := firstIndex (N.eqb c) s.
Definition lastIndexOf (s : jsstring) (c : N) : Z := lastIndex (N.eqb c) s.

(** [s.substring(from, to)]: both indices are clamped to the string and
    swapped when out of order. *)
Definition substring (s : jsstring) (from to : Z) : jsstring :=
  let len := Z.of_nat (List.length s) in
  let a := Z.min (Z.max from 0) len in
  let b := Z.min (Z.max to 0) len in
  firstn (Z.to_nat (Z.max a b - Z.min a b)) (skipn (Z.to_nat (Z.min a b)) s).

Definition lbrace : N := 123.
Definition rbrace : N := 125.

(** ** Reading properties of a parsed value *)

(** The properties the route reads. None of them exists on a built-in
    prototype, so a read finds an own property or nothing. *)
Inductive Key := Kcandidates | Kcontent | Kparts | Ktext | K0.

Definition keyName (k : Key) : jsstring :=
  match k with
  | Kcandidates => js "candidates"
  | Kcontent => js "content"
  | Kparts => js "parts"
  | Ktext => js "text"
  | K0 => js "0"
  end.

Fixpoint lookup (k : jsstring) (props : list (jsstring * JSValue)) : JSValue :=
  match props with
  | [] => JUndefined
  | (k', v) :: rest => if JSON.jsstring_eqb k k' then v else lookup k rest
  end.

(** [v[k]] for a value that is neither null nor undefined. *)
Definition get (v : JSValue) (k : Key) : JSValue :=
  match v with
  | JObj props => lookup (keyName k) props
  | JArr items =>
      match k, items with
      | K0, x :: _ => x
      | _, _ => JUndefined
      end
  | JStr s =>
      match k, s with
      | K0, c :: _ => JStr [c]
      | _, _ => JUndefined
      end
  | _ => JUndefined
  end.

Definition nullish (v : JSValue) : bool :=
  match v with
  | JUndefined | JNull => true
  | _ => false
  end.

(** [v?.[k]] *)
Definition getOpt (v : JSValue) (k : Key) : JSValue :=
  if nullish v then JUndefined else get v k.

(** The value as a condition. *)
Definition truthy (v : JSValue) : bool :=
  match v with
  | JUndefined | JNull => false
  | JBool b => b
  | JNum x => negb (Qeq_bool x 0)
  | JStr [] => false
  | _ => true
  end.

(** ** Replies of the route *)

Record Reply := mkReply { code : Z; body : JSValue }.

(** [{ error: e }] and [{ error: e, details: d }] *)
Definition errorBody (e : string) : JSValue := JObj [(js "error", JStr (js e))].
Definition errorDetails (e : string) (d : jsstring) : JSValue :=
  JObj [(js "error", JStr (js e)); (js "details", JStr d)].

(** [!process.env.GEMINI_API_KEY]: the variable is unset or empty. *)
Definition keyMissing (key : option jsstring) : bool :=
  match key with
  | None | Some [] => true
  | Some (_ :: _) => false
  end.

(** What the engine raises by itself. *)
Inductive Fault :=
| ReadOfNullish (v : JSValue) (k : jsstring)   (* v.k with v null *)
| NotAFunction (method : jsstring).       (* jsonText.method(...) *)

Section Route.

Variable upstream : nat -> Error + Response.
Variable random : nat -> Q.

(** [JSON.parse]: the value, or the message of its SyntaxError. *)
Variable JSON_parse : jsstring -> jsstring + JSValue.

(** [JSON.stringify(v, null, indent)]: the text, or what it throws (a
    RangeError when the value is nested deeper than the stack of the
    engine allows, or the text longer than a string may be).
    [res.json(v)] serialises [v] with it, without indentation, before it
    sends anything.  It is asked about the values that come from the
    upstream only: the bodies of the error replies, flat objects of one
    or two strings, are taken to be serialised. *)
Variable JSON_stringify : Z -> JSValue -> Error + jsstring.

(** The message of a TypeError of the engine. *)
Variable describe : Fault -> jsstring.

Definition typeError (f : Fault) : Error := mkError ETypeError (describe f).

(** [v.k]: reading a property of null throws. *)
Definition read (v : JSValue) (k : Key) : M JSValue :=
  if nullish v then throw (typeError (ReadOfNullish v (keyName k)))
  else ret (get v k).

Definition notFound : Error :=
  new_Error (js "Valid JSON object not found in AI response.").

(** The [try] block up to [JSON.parse]: the parsed value, or what is
    thrown.  A text that is not a string has the methods of its own
    kind: an array searches its elements and has no [substring]; nothing
    else has [indexOf]. *)
Definition extractJson (jsonText : JSValue) : M JSValue :=
  match jsonText with
  | JStr s =>
      let startIndex := indexOf s lbrace in
      let endIndex := lastIndexOf s rbrace in
      if (startIndex =? -1) || (endIndex =? -1) || (endIndex <? startIndex)
      then throw notFound
      else
        let cleanedJsonText := substring s startIndex (endIndex + 1) in
        match JSON_parse cleanedJsonText with
        | inr parsedJson => ret parsedJson
        | inl m => throw (mkError ESyntaxError m)
        end
  | JArr items =>
      let isStr c v :=
        match v with JStr [x] => N.eqb x c | _ => false end in
      let startIndex := firstIndex (isStr lbrace) items in
      let endIndex := lastIndex (isStr rbrace) items in
      if (startIndex =? -1) || (endIndex =? -1) || (endIndex <? startIndex)
      then throw notFound
      else throw (typeError (NotAFunction (js "substring")))
  | JUndefined | JNull =>
      throw (typeError (ReadOfNullish jsonText (js "indexOf")))
  | _ => throw (typeError (NotAFunction (js "indexOf")))
  end.

(** The branch taken when the candidate carries a text: log it, recover
    the object and send it, or report the failure.  [res.json] is inside
    the [try]: what it throws while it serialises is caught like a
    failure of [JSON.parse]. *)
Definition respondWithText (jsonText : JSValue) : M Reply :=
  console LLog [JStr (js "AI Response (Raw JSON Text):"); jsonText] ;;;
  catch
    (parsedJson <- extractJson jsonText ;;
     settle (JSON_stringify 0 parsedJson) ;;;
     ret (mkReply 200 parsedJson))
    (fun parseError =>
       console LError [JStr (js "Failed to parse JSON response from AI:");
                       JStr (message parseError)] ;;;
       console LError [JStr (js "Raw text was:"); jsonText] ;;;
       ret (mkReply 500 (errorBody "Failed to parse AI response."))).

(** [candidate.content?.parts?.[0]?.text], for a candidate that is not
    null. *)
Definition textOf (candidate : JSValue) : JSValue :=
  getOpt (getOpt (getOpt (get candidate Kcontent) Kparts) K0) Ktext.

Definition modelName : jsstring := js "gemini-2.5-flash-preview-09-2025".

Definition apiUrl (apiKey : jsstring) : jsstring :=
  js "https://generativelanguage.googleapis.com/v1beta/models/"
  ++ modelName ++ js ":generateContent?key=" ++ apiKey.

Definition userQueryFor (name : jsstring) : jsstring :=
  js "Find the current national average wholesale price for " ++ name
  ++ js " in India.".

(** The route [GET /get-price/:name] with the retry policy its call of
    [fetchWithBackoff] is given. *)
Definition getPriceWith (maxRetries baseDelay : option Z)
  (GEMINI_API_KEY : option jsstring) (name : jsstring) : M Reply :=
  catch
    (if keyMissing GEMINI_API_KEY then
       console LError
         [JStr (js "GEMINI_API_KEY is not set in your .env file.")] ;;;
       ret (mkReply 500
              (errorBody "Server configuration error: AI Key is missing."))
     else
       let apiKey :=
         match GEMINI_API_KEY with Some k => k | None => [] end in
       let fetchFn :=
         fetch upstream (mkRequest (apiUrl apiKey) (userQueryFor name)) in
       console LLog [JStr (js "Fetching price for: " ++ name ++ js "...")] ;;;
       response <- fetchWithBackoff random fetchFn maxRetries baseDelay ;;
       result <- settle (json response) ;;
       candidates <- read result Kcandidates ;;
       let candidate := getOpt candidates K0 in
       if truthy candidate && truthy (textOf candidate)
       then respondWithText (textOf candidate)
       else
         shown <- settle (JSON_stringify 2 result) ;;
         console LError [JStr (js "Invalid AI response structure:");
                         JStr shown] ;;;
         ret (mkReply 500
                (errorBody "AI service returned an invalid response.")))
    (fun error =>
       console LError [JStr (js "Gemini API Error:"); JStr (message error)] ;;;
       ret (mkReply 500
              (errorDetails "Failed to get response from AI service."
                 (message error)))).

(** The route as the source has it: [fetchWithBackoff(fetchFn)]. *)
Definition getPrice : option jsstring -> jsstring -> M Reply :=
  getPriceWith None None.

End Route.

(** ** The route of [index.js]: one call of the SDK, no retry *)

Section IndexRoute.

(** What [ai.models.generateContent] does on the n-th request: it
    rejects, or resolves to a response whose [text] is a string or
    undefined. *)
Variable genai : nat -> Error + option jsstring.

Definition generateContent (model contents : jsstring)
  : M (option jsstring) :=
  fun w =>
    (genai (fetched w),
     mkWorld (S (fetched w)) (drawn w)
       (events w ++ [EvGenerate model contents])).

Definition rupee : jsstring := [8377%N].

Definition promptFor (name : jsstring) : jsstring :=
  js "Search for the current national average wholesale or mandi price of "
  ++ name
  ++ js " in Indian Rupees per kilogram. The final output must be ONLY the price, formatted exactly as: '"
  ++ rupee
  ++ js " X.X' (including the single quotes, with X.X being the average price rounded to one decimal place). DO NOT provide any other text, explanation, or formatting.".

Definition optText (t : option jsstring) : JSValue :=
  match t with Some s => JStr s | None => JUndefined end.

(** [{ explanation: text }] as it is sent: a property that is undefined
    is left out. *)
Definition explanationBody (t : option jsstring) : JSValue :=
  match t with
  | Some s => JObj [(js "explanation", JStr s)]
  | None => JObj []
  end.

Definition getPriceIndex (GEMINI_API_KEY : option jsstring)
  (name : jsstring) : M Reply :=
  catch
    (if keyMissing GEMINI_API_KEY then
       console LError
         [JStr (js "GEMINI_API_KEY is not set in environment variables.")] ;;;
       ret (mkReply 500
              (errorBody "Server configuration error: AI Key missing."))
     else
       text <- generateContent (js "gemini-2.5-flash") (promptFor name) ;;
       console LLog [JStr (js "AI Response:"); optText text] ;;;
       ret (mkReply 200 (explanationBody text)))
    (fun error =>
       console LError [JStr (js "Gemini API Error:"); JStr (message error)] ;;;
       ret (mkReply 500
              (errorDetails "Failed to get response from AI service."
                 (message error)))).

End IndexRoute.

(** * Vocabulary of the properties *)

(** The events a computation added to the trace it started from. *)
Definition added (w w' : World) (t : list Event) : Prop :=
  events w' = events w ++ t.

(** The warning of the branch for status 429. *)
Definition rateLimitedEvent : Event :=
  EvConsole LWarn [JStr rateLimitedWarning].


(** A response that the specification calls a client error. *)
Definition clientRejection (o : Error + Response) : Prop :=
  match o with
  | inl _ => False
  | inr r => 400 <= status r <= 499
  end.

(** An event of the console. *)
Definition is_console (e : Event) : bool :=
  match e with EvConsole _ _ => true | _ => false end.

(** The sum of a list of durations. *)
Definition total (l : list Q) : Q := fold_right Qplus 0%Q l.

(** What the extraction gives once [JSON.parse] has been applied to the
    text [t]: its value, or its SyntaxError. *)
Definition parseOutcome (JSON_parse : jsstring -> jsstring + JSValue)
  (t : jsstring) (w : World) : (Error + JSValue) * World :=
  match JSON_parse t with
  | inr v => (inr v, w)
  | inl m => (inl (mkError ESyntaxError m), w)
  end.

(** [result.candidates?.[0]], for a result that is not null. *)
Definition candidateOf (result : JSValue) : JSValue :=
  getOpt (get result Kcandidates) K0.

(** The request the route sends, again at every attempt. *)
Definition requestOf (apiKey name : jsstring) : Request :=
  mkRequest (apiUrl apiKey) (userQueryFor name).

(** The world after the line the route logs before it calls the
    upstream. *)
Definition announced (name : jsstring) (w : World) : World :=
  mkWorld (fetched w) (drawn w)
    (events w
     ++ [EvConsole LLog [JStr (js "Fetching price for: " ++ name ++ js "...")]]).

(** The reply of the outer [catch] of either route. *)
Definition upstreamFailure (e : Error) : Reply :=
  mkReply 500
    (errorDetails "Failed to get response from AI service." (message e)).

(** The number of attempts a call is allowed: the argument, or the
    default of the parameter. *)
Definition budgetOf (maxRetries : option Z) : Z :=
  match maxRetries with Some n => n | None => 5 end.

(** A value that is not a string. *)
Definition notString (v : JSValue) : Prop :=
  match v with JStr _ => False | _ => True end.

(** What it means for the fuel of the parser not to matter at [n]: a
    result obtained with fuel [n] consumed at least one code unit and is
    obtained again with any fuel that is twice the number consumed. *)
Definition value_ok (n : nat) : Prop :=
  forall s v r, JSON.value n s = Some (v, r) ->
    (List.length r < List.length s)%nat
    /\ forall m, (2 * (List.length s - List.length r) <= m)%nat ->
                 JSON.value m s = Some (v, r).

Definition elements_ok (n : nat) : Prop :=
  forall s acc v r, JSON.elements n s acc = Some (v, r) ->
    (List.length r < List.length s)%nat
    /\ forall m, (2 * (List.length s - List.length r) <= m)%nat ->
                 JSON.elements m s acc = Some (v, r).

Definition members_ok (n : nat) : Prop :=
  forall s acc v r, JSON.members n s acc = Some (v, r) ->
    (List.length r < List.length s)%nat
    /\ forall m, (2 * (List.length s - List.length r) <= m)%nat ->
                 JSON.members m s acc = Some (v, r).

Section Traces.

Variable upstream : nat -> Error + Response.
Variable random : nat -> Q.
Variable req : Request.
Variable baseDelay : Z.

(** An outcome after which the loop goes on: the promise rejected, or
    the response is not [ok]. *)
Definition failing (o : Error + Response) : bool :=
  match o with
  | inl _ => true
  | inr r => negb (ok r)
  end.

(** The warning one failed attempt logs. *)
Definition warningFor (attempt : Z) (o : Error + Response) : jsstring :=
  match o with
  | inl e => retryWarning attempt e
  | inr r =>
      if (status r >=? 400) && (status r <? 500)
      then retryWarning attempt (clientError r)
      else serverWarning r
  end.

(** The delay slept after the failed attempt number [attempt], when
    [Math.random] has been called [d] times before. *)
Definition delayAt (baseDelay attempt : Z) (d : nat) : Q :=
  Double.binary64
    (Double.binary64 (inject_Z (baseDelay * 2 ^ attempt))
     + Double.binary64 (random d * 1000))%Q.

(** The events of [k] failed attempts in a row, none of them the last:
    request, warning, sleep, [k] times.  [f] and [d] count the requests
    and the calls of [Math.random] made before. *)
Fixpoint failedRounds (k : nat) (attempt : Z) (f d : nat) : list Event :=
  match k with
  | O => []
  | S k' =>
      EvFetch req
      :: EvConsole LWarn [JStr (warningFor attempt (upstream f))]
      :: EvSleep (delayAt baseDelay attempt d)
      :: failedRounds k' (attempt + 1) (S f) (S d)
  end.

End Traces.

(** * Scenarios: concrete environments *)

Definition respond (code : Z) (text : string) : Response :=
  mkResponse code (js text) (inr JNull).

(** An upstream that answers every request with the same response. *)
Definition always (r : Response) (_ : nat) : Error + Response := inr r.

Definition unavailable : Response := respond 503 "Service Unavailable".
Definition missing : Response := respond 404 "Not Found".
Definition tooMany : Response := respond 429 "Too Many Requests".


(** [Math.random] returning [1 - 2^-53], the largest double below 1, and
    then 0. *)
Definition highThenZero (n : nat) : Q :=
  match n with
  | O => (2 ^ 53 - 1) # (2 ^ 53)
  | _ => 0
  end.

(** [Math.random] returning one half every time. *)
Definition half (_ : nat) : Q := 1 # 2.

Definition someRequest : Request :=
  mkRequest (js "https://upstream.example/generate") (js "wheat").

(** [JSON.parse] of the model above, with the message the engine gives
    to the SyntaxError of a text it rejects. *)
Definition JSON_parse_std (syntaxMessage : jsstring -> jsstring)
  (s : jsstring) : jsstring + JSValue :=
  match JSON.parse s with
  | Some v => inr v
  | None => inl (syntaxMessage s)
  end.

(** A text between double quotes, and a line feed. *)
Definition quoted (s : string) : jsstring := [34%N] ++ js s ++ [34%N].
Definition newline : jsstring := [10%N].

(** The fenced answer of the round-trip example of the specification. *)
Definition wheatObject : jsstring :=
  js "{" ++ quoted "commodity" ++ js ":" ++ quoted "wheat" ++ js ","
  ++ quoted "price" ++ js ":25.5,"
  ++ quoted "currency" ++ js ":" ++ quoted "INR" ++ js ","
  ++ quoted "unit" ++ js ":" ++ quoted "per kilogram" ++ js "}".

Definition wheatAnswer : jsstring :=
  js "Here is the data: ```json" ++ newline ++ wheatObject ++ newline
  ++ js "```".

Definition wheatResult : JSValue :=
  JObj [(js "commodity", JStr (js "wheat"));
        (js "price", JNum (51 # 2));
        (js "currency", JStr (js "INR"));
        (js "unit", JStr (js "per kilogram"))].

(** The envelope of the upstream around a generated text. *)
Definition envelope (text : JSValue) : JSValue :=
  JObj [(js "candidates",
         JArr [JObj [(js "content",
                      JObj [(js "parts",
                             JArr [JObj [(js "text", text)]])])]])].

(** A successful answer of the upstream that carries [text]. *)
Definition answer (text : jsstring) : Response :=
  mkResponse 200 (js "OK") (inr (envelope (JStr text))).

(** An upstream that fails twice with status 500 and then answers. *)
Definition flaky (n : nat) : Error + Response :=
  match n with
  | O | S O => inr (respond 500 "Internal Server Error")
  | _ => inr (answer wheatAnswer)
  end.

(** What stands between the braces of [wheatObject]. *)
Definition wheatInside : jsstring :=
  quoted "commodity" ++ js ":" ++ quoted "wheat" ++ js ","
  ++ quoted "price" ++ js ":25.5,"
  ++ quoted "currency" ++ js ":" ++ quoted "INR" ++ js ","
  ++ quoted "unit" ++ js ":" ++ quoted "per kilogram".

(** An upstream whose every answer is status 200 with the given body. *)
Definition answering (bodyOutcome : Error + JSValue) : nat -> Error + Response :=
  always (mkResponse 200 (js "OK") bodyOutcome).

(** An upstream out of reach: every request is rejected. *)
Definition unreachable (_ : nat) : Error + Response :=
  inl (mkError ETypeError (js "fetch failed")).

Definition truncatedBody : Error :=
  mkError ESyntaxError (js "Unexpected end of JSON input").

Definition plainMessage (_ : jsstring) : jsstring := js "Unexpected token".
Definition plainFault (_ : Fault) : jsstring := js "TypeError".
Definition plainStringify (_ : Z) (_ : JSValue) : Error + jsstring :=
  inr (js "[value]").

(** How deep a value is nested. *)
Fixpoint depth (v : JSValue) : nat :=
  match v with
  | JArr items =>
      S ((fix deepest (l : list JSValue) : nat :=
            match l with
            | [] => 0%nat
            | x :: rest => Nat.max (depth x) (deepest rest)
            end) items)
  | JObj props =>
      S ((fix deepest (l : list (jsstring * JSValue)) : nat :=
            match l with
            | [] => 0%nat
            | (_, x) :: rest => Nat.max (depth x) (deepest rest)
            end) props)
  | _ => 0%nat
  end.

Definition stackOverflow : Error :=
  mkError ERangeError (js "Maximum call stack size exceeded").

(** An engine whose [JSON.stringify] fails in one way only: its stack
    holds [limit] levels of nesting. *)
Definition stackEngine (limit : nat) (_ : Z) (v : JSValue)
  : Error + jsstring :=
  if (depth v <=? limit)%nat then inr (js "[value]") else inl stackOverflow.

(** A 1 inside [n] pairs of brackets, and the value it is the text
    of. *)
Fixpoint nested (n : nat) : jsstring :=
  match n with
  | O => js "1"
  | S n => [91%N] ++ nested n ++ [93%N]
  end.

Fixpoint tower (n : nat) : JSValue :=
  match n with
  | O => JNum 1
  | S n => JArr [tower n]
  end.

(** An answer whose price is such a text, and the object it is the text
    of. *)
Definition deepAnswer (n : nat) : jsstring :=
  js "{" ++ quoted "price" ++ js ":" ++ nested n ++ js "}".

Definition deepValue (n : nat) : JSValue := JObj [(js "price", tower n)].


(** * Properties of the arithmetic of doubles *)

Section DoubleFacts.

Import Double.

Lemma pow2_pos (e : Z) : (0 < pow2 e)%Q.
Proof. apply Qpower_0_lt. reflexivity. Qed.

Lemma pow2_add (a b : Z) : (pow2 (a + b) == pow2 a * pow2 b)%Q.
Proof. apply Qpower_plus. discriminate. Qed.

Lemma pow2_le (a b : Z) : a <= b -> (pow2 a <= pow2 b)%Q.
Proof. intro H. apply Qpower_le_compat_l; [exact H | discriminate]. Qed.

Lemma pow2_lt (a b : Z) : a < b -> (pow2 a < pow2 b)%Q.
Proof. intro H. apply Qpower_lt_compat_l; [exact H | reflexivity]. Qed.

Lemma pow2_lt_inv (a b : Z) : (pow2 a < pow2 b)%Q -> a < b.
Proof. intro H. eapply Qpower_lt_compat_l_inv; [exact H | reflexivity]. Qed.

Lemma pow2_Z (n : Z) : 0 <= n -> (pow2 n == inject_Z (2 ^ n))%Q.
Proof. intro H. symmetry. apply (Zpower_Qpower 2 n H). Qed.

Lemma pow2_cancel (e : Z) : (pow2 (- e) * pow2 e == 1)%Q.
Proof. rewrite <- pow2_add. now replace (- e + e) with 0 by lia. Qed.

(** [ilog2] brackets a positive number between two powers of two. *)
Lemma ilog2_spec (x : Q) :
  (0 < x)%Q -> (pow2 (ilog2 x) <= x)%Q /\ (x < pow2 (ilog2 x + 1))%Q.
Proof.
  intro Hx. destruct x as [p den].
  assert (Hp : 0 < p) by (unfold Qlt in Hx; simpl in Hx; lia).
  unfold ilog2. cbn [Qnum Qden].
  set (lp := Z.log2 p). set (lq := Z.log2 (Z.pos den)).
  destruct (Z.log2_spec p Hp) as [Hp1 Hp2]. fold lp in Hp1, Hp2.
  destruct (Z.log2_spec (Z.pos den) (Pos2Z.is_pos den)) as [Hq1 Hq2].
  fold lq in Hq1, Hq2.
  assert (Hlp : 0 <= lp) by apply Z.log2_nonneg.
  assert (Hlq : 0 <= lq) by apply Z.log2_nonneg.
  assert (Ex : ((p # den) * inject_Z (Z.pos den) == inject_Z p)%Q).
  { rewrite (Qmake_Qdiv p den). field. discriminate. }
  set (x := p # den) in *. set (D := inject_Z (Z.pos den)) in *.
  assert (HD : (0 < D)%Q)
    by (unfold D; rewrite <- (Zlt_Qlt 0); apply Pos2Z.is_pos).
  assert (B1 : (pow2 lp <= inject_Z p)%Q)
    by (rewrite pow2_Z, <- Zle_Qle; lia).
  assert (B2 : (inject_Z p < pow2 (lp + 1))%Q).
  { rewrite pow2_Z, <- Zlt_Qlt by lia.
    now replace (lp + 1) with (Z.succ lp) by lia. }
  assert (B3 : (pow2 lq <= D)%Q)
    by (unfold D; rewrite pow2_Z, <- Zle_Qle; lia).
  assert (B4 : (D < pow2 (lq + 1))%Q).
  { unfold D. rewrite pow2_Z, <- Zlt_Qlt by lia.
    now replace (lq + 1) with (Z.succ lq) by lia. }
  rewrite <- Ex in B1, B2.
  assert (U : (x < pow2 (lp - lq + 1))%Q).
  { apply Qnot_le_lt. intro H.
    assert (H' : (pow2 (lp - lq + 1) * pow2 lq <= x * D)%Q).
    { apply Qle_trans with (x * pow2 lq)%Q.
      - apply Qmult_le_r; [apply pow2_pos | exact H].
      - apply Qmult_le_l; [exact Hx | exact B3]. }
    rewrite <- pow2_add in H'.
    replace (lp - lq + 1 + lq) with (lp + 1) in H' by lia.
    apply (Qlt_irrefl (x * D)). eapply Qlt_le_trans; eauto. }
  assert (L : (pow2 (lp - lq - 1) < x)%Q).
  { apply Qnot_le_lt. intro H.
    assert (H' : (x * D < pow2 (lp - lq - 1) * pow2 (lq + 1))%Q).
    { apply Qle_lt_trans with (pow2 (lp - lq - 1) * D)%Q.
      - apply Qmult_le_r; [exact HD | exact H].
      - apply Qmult_lt_l; [apply pow2_pos | exact B4]. }
    rewrite <- pow2_add in H'.
    replace (lp - lq - 1 + (lq + 1)) with lp in H' by lia.
    apply (Qlt_irrefl (x * D)). eapply Qlt_le_trans; eauto. }
  destruct (Qle_bool (pow2 (lp - lq)) x) eqn:E.
  - apply Qle_bool_iff in E. split; [exact E | exact U].
  - split.
    + apply Qlt_le_weak, L.
    + replace (lp - lq - 1 + 1) with (lp - lq) by lia.
      apply Qnot_le_lt. intro H. apply Qle_bool_iff in H. congruence.
Qed.

Lemma ilog2_mono (x y : Q) : (0 < x)%Q -> (x <= y)%Q -> ilog2 x <= ilog2 y.
Proof.
  intros Hx H.
  assert (Hy : (0 < y)%Q) by (eapply Qlt_le_trans; eauto).
  destruct (ilog2_spec x Hx) as [A1 A2]. destruct (ilog2_spec y Hy) as [B1 B2].
  assert (ilog2 x < ilog2 y + 1)
    by (apply pow2_lt_inv; eapply Qle_lt_trans; [exact A1 |];
        eapply Qle_lt_trans; eauto).
  lia.
Qed.

Lemma rne_comp (x y : Q) : (x == y)%Q -> rne x = rne y.
Proof.
  intro E. unfold rne. rewrite (Qfloor_comp x y E). set (f := Qfloor y).
  assert (C : (x - inject_Z f ?= 1 # 2)%Q = (y - inject_Z f ?= 1 # 2)%Q)
    by (apply Qcompare_comp; [now rewrite E | reflexivity]).
  now rewrite C.
Qed.

Lemma rne_Z (n : Z) : rne (inject_Z n) = n.
Proof.
  unfold rne. rewrite Qfloor_Z.
  assert (E : (inject_Z n - inject_Z n ?= 1 # 2)%Q = Lt).
  { rewrite <- Qlt_alt. ring_simplify. reflexivity. }
  now rewrite E.
Qed.

Lemma rne_bounds (x : Q) : Qfloor x <= rne x <= Qfloor x + 1.
Proof.
  unfold rne. destruct (x - inject_Z (Qfloor x) ?= 1 # 2)%Q; try lia.
  destruct (Z.even (Qfloor x)); lia.
Qed.

Lemma rne_mono (x y : Q) : (x <= y)%Q -> rne x <= rne y.
Proof.
  intro H. pose proof (Qfloor_resp_le x y H) as Hf.
  destruct (Z.eq_dec (Qfloor x) (Qfloor y)) as [E | NE].
  - unfold rne. rewrite <- E. set (f := Qfloor x).
    destruct (x - inject_Z f ?= 1 # 2)%Q eqn:Cx;
      destruct (y - inject_Z f ?= 1 # 2)%Q eqn:Cy;
      try (destruct (Z.even f)); try lia; exfalso;
      repeat match goal with
             | C : (_ ?= _)%Q = Eq |- _ => apply Qeq_alt in C
             | C : (_ ?= _)%Q = Lt |- _ => apply Qlt_alt in C
             | C : (_ ?= _)%Q = Gt |- _ => apply Qgt_alt in C
             end; lra.
  - pose proof (rne_bounds x). pose proof (rne_bounds y). lia.
Qed.

Lemma binary64_pos (x : Q) :
  (0 < x)%Q -> (binary64 x == inject_Z (mant x) * pow2 (qexp x))%Q.
Proof.
  intro Hx. destruct x as [p d].
  assert (Hp : 0 < p) by (unfold Qlt in Hx; simpl in Hx; lia).
  destruct p as [| p | p]; try lia.
  unfold binary64. cbn [Qnum]. rewrite Qred_correct.
  change (Qabs (Z.pos p # d)) with (Z.pos p # d).
  change (Z.sgn (Z.pos p)) with 1. rewrite Z.mul_1_l. reflexivity.
Qed.

Lemma binary64_zero (x : Q) : (x == 0)%Q -> binary64 x = 0%Q.
Proof.
  intro E. destruct x as [p d]. unfold Qeq in E. simpl in E.
  assert (p = 0) by lia. subst. reflexivity.
Qed.

Lemma mant_nonneg (x : Q) : (0 <= x)%Q -> 0 <= mant x.
Proof.
  intro Hx. unfold mant. rewrite <- (rne_Z 0). apply rne_mono.
  apply Qmult_le_0_compat; [exact Hx | apply Qlt_le_weak, pow2_pos].
Qed.

Lemma scaled_upper (x : Q) :
  (0 < x)%Q -> (x * pow2 (- qexp x) < inject_Z (2 ^ 53))%Q.
Proof.
  intro Hx. destruct (ilog2_spec x Hx) as [_ U].
  rewrite <- (pow2_Z 53) by lia.
  apply Qlt_le_trans with (pow2 (ilog2 x + 1) * pow2 (- qexp x))%Q.
  - apply Qmult_lt_r; [apply pow2_pos | exact U].
  - rewrite <- pow2_add. apply pow2_le. unfold qexp. lia.
Qed.

Lemma mant_upper (x : Q) : (0 < x)%Q -> mant x <= 2 ^ 53.
Proof.
  intro Hx. unfold mant. rewrite <- (rne_Z (2 ^ 53)). apply rne_mono.
  apply Qlt_le_weak, scaled_upper, Hx.
Qed.

Lemma mant_lower (x : Q) :
  (0 < x)%Q -> -1074 <= ilog2 x - 52 -> 2 ^ 52 <= mant x.
Proof.
  intros Hx Hn. destruct (ilog2_spec x Hx) as [L _].
  unfold mant. rewrite <- (rne_Z (2 ^ 52)). apply rne_mono.
  rewrite <- (pow2_Z 52) by lia.
  apply Qle_trans with (pow2 (ilog2 x) * pow2 (- qexp x))%Q.
  - rewrite <- pow2_add. apply pow2_le. unfold qexp. lia.
  - apply Qmult_le_r; [apply pow2_pos | exact L].
Qed.

(** Rounding keeps the order of numbers that are not negative. *)
Lemma binary64_mono (x y : Q) :
  (0 <= x)%Q -> (x <= y)%Q -> (binary64 x <= binary64 y)%Q.
Proof.
  intros Hx Hxy.
  assert (Hy : (0 <= y)%Q) by (eapply Qle_trans; eauto).
  destruct (Qlt_le_dec 0 x) as [Px | Zx].
  2:{ rewrite (binary64_zero x) by (apply Qle_antisym; assumption).
      destruct (Qlt_le_dec 0 y) as [Py | Zy].
      - rewrite (binary64_pos y Py).
        apply Qmult_le_0_compat; [| apply Qlt_le_weak, pow2_pos].
        rewrite <- (Zle_Qle 0). now apply mant_nonneg.
      - rewrite (binary64_zero y) by (apply Qle_antisym; assumption).
        apply Qle_refl. }
  assert (Py : (0 < y)%Q) by (eapply Qlt_le_trans; eauto).
  rewrite (binary64_pos x Px), (binary64_pos y Py).
  pose proof (ilog2_mono x y Px Hxy) as He.
  destruct (Z.eq_dec (qexp x) (qexp y)) as [E | NE].
  - unfold mant. rewrite E. apply Qmult_le_r; [apply pow2_pos |].
    rewrite <- Zle_Qle. apply rne_mono.
    apply Qmult_le_r; [apply pow2_pos | exact Hxy].
  - assert (Hq : qexp x + 1 <= qexp y) by (unfold qexp in *; lia).
    assert (Hn : -1074 <= ilog2 y - 52) by (unfold qexp in *; lia).
    assert (Ey : qexp y = ilog2 y - 52) by (unfold qexp in *; lia).
    apply Qle_trans with (inject_Z (2 ^ 53) * pow2 (qexp x))%Q.
    + apply Qmult_le_r; [apply pow2_pos |].
      rewrite <- Zle_Qle. now apply mant_upper.
    + apply Qle_trans with (inject_Z (2 ^ 52) * pow2 (qexp y))%Q.
      * rewrite <- !pow2_Z, <- !pow2_add by lia. apply pow2_le. lia.
      * apply Qmult_le_r; [apply pow2_pos |].
        rewrite <- Zle_Qle. now apply mant_lower.
Qed.

Lemma binary64_nonneg (x : Q) : (0 <= x)%Q -> (0 <= binary64 x)%Q.
Proof.
  intro Hx. change 0%Q with (binary64 0) at 1.
  apply binary64_mono; [apply Qle_refl | exact Hx].
Qed.

(** An integer up to 2^53 is a double. *)
Lemma binary64_Z (n : Z) :
  0 <= n <= 2 ^ 53 -> (binary64 (inject_Z n) == inject_Z n)%Q.
Proof.
  intros [H0 H53].
  destruct (Z.eq_dec n 0) as [-> | Hn]; [reflexivity |].
  assert (Px : (0 < inject_Z n)%Q) by (rewrite <- (Zlt_Qlt 0); lia).
  rewrite (binary64_pos _ Px).
  destruct (ilog2_spec _ Px) as [L U].
  set (e := ilog2 (inject_Z n)) in *.
  assert (He : e <= 53).
  { assert (e < 54); [| lia]. apply pow2_lt_inv.
    eapply Qle_lt_trans; [exact L |].
    rewrite (pow2_Z 54), <- Zlt_Qlt by lia.
    assert (2 ^ 53 < 2 ^ 54) by (apply Z.pow_lt_mono_r; lia). lia. }
  assert (He0 : 0 <= e).
  { assert (0 < e + 1); [| lia]. apply pow2_lt_inv.
    eapply Qle_lt_trans; [| exact U].
    change (pow2 0) with 1%Q. rewrite <- (Zle_Qle 1). lia. }
  assert (Eq : qexp (inject_Z n) = e - 52) by (unfold qexp; fold e; lia).
  unfold mant. rewrite Eq.
  assert (Hm : exists m : Z, (inject_Z n * pow2 (- (e - 52)) == inject_Z m)%Q).
  { destruct (Z.eq_dec e 53) as [E53 | N53].
    - exists (2 ^ 52). rewrite E53 in *.
      assert (n = 2 ^ 53).
      { apply Z.le_antisymm; [exact H53 |].
        rewrite Zle_Qle, <- (pow2_Z 53) by lia. exact L. }
      subst n. rewrite <- !pow2_Z, <- pow2_add by lia.
      now replace (53 + - (53 - 52)) with 52 by lia.
    - exists (n * 2 ^ (52 - e)).
      rewrite inject_Z_mult, <- (pow2_Z (52 - e)) by lia.
      now replace (- (e - 52)) with (52 - e) by lia. }
  destruct Hm as (m & Hm).
  rewrite (rne_comp _ _ Hm), rne_Z, <- Hm, <- Qmult_assoc, pow2_cancel.
  apply Qmult_1_r.
Qed.

(** The sum of a double that is an integer and of a jitter, both
    rounded: between the integer and the integer plus 1000, both ends
    included, as long as these are doubles. *)
Lemma rounded_sum_range (B : Z) (r : Q) :
  0 <= B -> B + 1000 <= 2 ^ 53 ->
  (0 <= r)%Q -> (r < 1)%Q ->
  (inject_Z B
   <= binary64 (binary64 (inject_Z B) + binary64 (r * 1000)))%Q
  /\ (binary64 (binary64 (inject_Z B) + binary64 (r * 1000))
      <= inject_Z (B + 1000))%Q.
Proof.
  intros HB Hmax H0 H1.
  assert (E : (binary64 (inject_Z B) == inject_Z B)%Q)
    by (apply binary64_Z; lia).
  assert (E' : (binary64 (inject_Z (B + 1000)) == inject_Z (B + 1000))%Q)
    by (apply binary64_Z; lia).
  assert (E1000 : (binary64 (inject_Z 1000) == 1000)%Q)
    by (apply (binary64_Z 1000); lia).
  assert (PB : (0 <= inject_Z B)%Q) by (rewrite <- (Zle_Qle 0); lia).
  assert (J0 : (0 <= binary64 (r * 1000))%Q) by (apply binary64_nonneg; lra).
  assert (J1 : (binary64 (r * 1000) <= binary64 (inject_Z 1000))%Q).
  { apply binary64_mono; [lra |]. change (inject_Z 1000) with 1000%Q. lra. }
  assert (S0 : (binary64 (inject_Z B)
                <= binary64 (binary64 (inject_Z B) + binary64 (r * 1000)))%Q)
    by (apply binary64_mono; lra).
  assert (S1 : (binary64 (binary64 (inject_Z B) + binary64 (r * 1000))
                <= binary64 (inject_Z (B + 1000)))%Q).
  { apply binary64_mono; [lra |].
    rewrite inject_Z_plus. change (inject_Z 1000) with 1000%Q. lra. }
  split; lra.
Qed.

End DoubleFacts.

(** * Properties of the resilient caller *)

Section CallerFacts.

Variable upstream : nat -> Error + Response.
Variable random : nat -> Q.
Variable req : Request.

(** Leaving the loop: the condition of the [while] is false. *)
Lemma backoffLoop_exit (fetchFn : M Response) (maxRetries baseDelay attempt : Z) :
  maxRetries <= attempt ->
  backoffLoop random fetchFn maxRetries baseDelay attempt = throw exhausted.
Proof.
  intro H. rewrite backoffLoop_equation_1.
  destruct (Z_lt_dec attempt maxRetries) as [Hlt | Hge]; [lia |].
  now rewrite backoffLoop_clause_1_equation_2.
Qed.

(** One iteration: the condition of the [while] is true. *)
Lemma backoffLoop_enter (fetchFn : M Response) (maxRetries baseDelay attempt : Z) :
  attempt < maxRetries ->
  backoffLoop random fetchFn maxRetries baseDelay attempt =
  (r <- catch (attemptOnce fetchFn) (attemptFailed attempt) ;;
   match r with
   | Some response => ret response
   | None =>
       if attempt =? maxRetries - 1 then throw exhausted
       else
         delay <- backoffDelay random baseDelay attempt ;;
         sleep delay ;;;
         backoffLoop random fetchFn maxRetries baseDelay (attempt + 1)
   end).
Proof.
  intro H. rewrite backoffLoop_equation_1.
  destruct (Z_lt_dec attempt maxRetries) as [Hlt | Hge]; [| lia].
  now rewrite backoffLoop_clause_1_equation_1.
Qed.

Lemma app_two {A} (l : list A) (a b : A) : (l ++ [a]) ++ [b] = l ++ [a; b].
Proof. now rewrite <- app_assoc. Qed.

Lemma app_three {A} (l : list A) (a b c : A) :
  (l ++ [a; b]) ++ [c] = l ++ [a; b; c].
Proof. now rewrite <- app_assoc. Qed.

(** The [try]/[catch] of one iteration on an outcome that fails: the
    request is issued, one warning is logged, nothing is returned. *)
Lemma iteration_fails (attempt : Z) (w : World) :
  failing (upstream (fetched w)) = true ->
  catch (attemptOnce (fetch upstream req)) (attemptFailed attempt) w =
  (inr None,
   mkWorld (S (fetched w)) (drawn w)
     (events w ++ [EvFetch req;
                   EvConsole LWarn
                     [JStr (warningFor attempt (upstream (fetched w)))]])).
Proof.
  intro Hf.
  unfold catch, attemptOnce, attemptFailed, bind, fetch, console, emit, ret,
    throw, warningFor.
  destruct (upstream (fetched w)) as [e | r]; simpl in *.
  - now rewrite app_two.
  - apply negb_true_iff in Hf. rewrite Hf.
    destruct ((status r >=? 400) && (status r <? 500)) eqn:H4; simpl.
    + now rewrite app_two.
    + assert (H429 : (status r =? 429) = false) by
        (apply Z.eqb_neq; intro E; rewrite E in H4; discriminate).
      rewrite H429. simpl. now rewrite app_two.
Qed.

(** The same on a response that is [ok]: it is returned. *)
Lemma iteration_succeeds (attempt : Z) (w : World) (r : Response) :
  upstream (fetched w) = inr r -> ok r = true ->
  catch (attemptOnce (fetch upstream req)) (attemptFailed attempt) w =
  (inr (Some r),
   mkWorld (S (fetched w)) (drawn w) (events w ++ [EvFetch req])).
Proof.
  intros Hu Hok.
  unfold catch, attemptOnce, bind, fetch, ret. rewrite Hu, Hok. reflexivity.
Qed.

Section Loop.

Variables maxRetries baseDelay : Z.

#[local] Abbreviation rounds := (failedRounds upstream random req baseDelay).

(** A failed attempt that is not the last one: warn, sleep, go on. *)
Lemma loop_round (attempt : Z) (w : World) :
  attempt < maxRetries - 1 ->
  failing (upstream (fetched w)) = true ->
  backoffLoop random (fetch upstream req) maxRetries baseDelay attempt w =
  backoffLoop random (fetch upstream req) maxRetries baseDelay (attempt + 1)
    (mkWorld (S (fetched w)) (S (drawn w))
       (events w ++ [EvFetch req;
                     EvConsole LWarn
                       [JStr (warningFor attempt (upstream (fetched w)))];
                     EvSleep (delayAt random baseDelay attempt (drawn w))])).
Proof.
  intros Hlt Hf. rewrite backoffLoop_enter by lia.
  unfold bind at 1. rewrite (iteration_fails attempt w Hf).
  assert (Hne : (attempt =? maxRetries - 1) = false) by (apply Z.eqb_neq; lia).
  rewrite Hne.
  unfold bind, backoffDelay, Math_random, sleep, emit, ret, delayAt. simpl.
  now rewrite app_three.
Qed.

(** A failed attempt that is the last one: warn, leave the loop, throw. *)
Lemma loop_last (attempt : Z) (w : World) :
  attempt = maxRetries - 1 ->
  failing (upstream (fetched w)) = true ->
  backoffLoop random (fetch upstream req) maxRetries baseDelay attempt w =
  (inl exhausted,
   mkWorld (S (fetched w)) (drawn w)
     (events w ++ [EvFetch req;
                   EvConsole LWarn
                     [JStr (warningFor attempt (upstream (fetched w)))]])).
Proof.
  intros He Hf. rewrite backoffLoop_enter by lia.
  unfold bind at 1. rewrite (iteration_fails attempt w Hf).
  assert (Hl : (attempt =? maxRetries - 1) = true) by (apply Z.eqb_eq; lia).
  now rewrite Hl.
Qed.

(** An attempt that succeeds: the response is returned at once. *)
Lemma loop_ok (attempt : Z) (w : World) (r : Response) :
  attempt < maxRetries ->
  upstream (fetched w) = inr r -> ok r = true ->
  backoffLoop random (fetch upstream req) maxRetries baseDelay attempt w =
  (inr r, mkWorld (S (fetched w)) (drawn w) (events w ++ [EvFetch req])).
Proof.
  intros Hlt Hu Hok. rewrite backoffLoop_enter by lia.
  unfold bind at 1. now rewrite (iteration_succeeds attempt w r Hu Hok).
Qed.

Lemma loop_rounds (k : nat) : forall (attempt : Z) (w : World),
  attempt + Z.of_nat k < maxRetries ->
  (forall i, (i < k)%nat -> failing (upstream (fetched w + i)) = true) ->
  backoffLoop random (fetch upstream req) maxRetries baseDelay attempt w =
  backoffLoop random (fetch upstream req) maxRetries baseDelay
    (attempt + Z.of_nat k)
    (mkWorld (fetched w + k) (drawn w + k)
       (events w
        ++ failedRounds upstream random req baseDelay k attempt
             (fetched w) (drawn w))).
Proof.
  induction k as [| k IH]; intros attempt w Hlt Hf.
  - destruct w as [f d t]. simpl.
    now rewrite Z.add_0_r, !Nat.add_0_r, app_nil_r.
  - rewrite loop_round; [| lia |].
    2:{ specialize (Hf 0%nat). rewrite Nat.add_0_r in Hf. apply Hf. lia. }
    rewrite IH; simpl fetched; simpl drawn; simpl events.
    + rewrite <- app_assoc. simpl.
      rewrite !Nat.add_succ_r.
      replace (attempt + 1 + Z.of_nat k) with (attempt + Z.of_nat (S k)) by lia.
      reflexivity.
    + lia.
    + intros i Hi. specialize (Hf (S i)).
      rewrite Nat.add_succ_r in Hf. apply Hf. lia.
Qed.


Lemma attempts_app (t1 t2 : list Event) :
  attempts (t1 ++ t2) = (attempts t1 + attempts t2)%nat.
Proof. unfold attempts. now rewrite filter_app, length_app. Qed.

Lemma sleeps_app (t1 t2 : list Event) :
  sleeps (t1 ++ t2) = sleeps t1 ++ sleeps t2.
Proof. unfold sleeps. now rewrite flat_map_app. Qed.

Lemma attempts_failedRounds (k : nat) : forall (attempt : Z) (f d : nat),
  attempts (rounds k attempt f d) = k.
Proof.
  induction k as [| k IH]; intros; [reflexivity |].
  specialize (IH (attempt + 1) (S f) (S d)).
  unfold attempts in *. simpl. now rewrite IH.
Qed.

Lemma sleeps_failedRounds (k : nat) : forall (attempt : Z) (f d : nat),
  List.length (sleeps (rounds k attempt f d)) = k.
Proof.
  induction k as [| k IH]; intros; [reflexivity |].
  specialize (IH (attempt + 1) (S f) (S d)).
  unfold sleeps in *. simpl. now rewrite IH.
Qed.

Lemma ok_iff (r : Response) : ok r = true <-> 200 <= status r <= 299.
Proof. unfold ok. rewrite andb_true_iff, !Z.leb_le. tauto. Qed.


Lemma clientRejection_failing (o : Error + Response) :
  clientRejection o -> failing o = true.
Proof.
  destruct o as [e | r]; simpl; [tauto |].
  intro H. apply negb_true_iff.
  destruct (ok r) eqn:E; [| reflexivity].
  apply ok_iff in E. lia.
Qed.

(** When every attempt fails, the loop uses its whole budget: all the
    rounds but the last sleep, the last one throws. *)
Lemma loop_exhausts (w : World) :
  1 <= maxRetries ->
  (forall n, failing (upstream n) = true) ->
  backoffLoop random (fetch upstream req) maxRetries baseDelay 0 w =
  (inl exhausted,
   mkWorld (fetched w + Z.to_nat maxRetries)
     (drawn w + Z.to_nat (maxRetries - 1))
     (events w
      ++ rounds (Z.to_nat (maxRetries - 1)) 0 (fetched w) (drawn w)
      ++ [EvFetch req;
          EvConsole LWarn
            [JStr (warningFor (maxRetries - 1)
                     (upstream (fetched w + Z.to_nat (maxRetries - 1))))]])).
Proof.
  intros Hm Hf.
  rewrite (loop_rounds (Z.to_nat (maxRetries - 1))) by (intros; auto; lia).
  rewrite loop_last; simpl fetched; simpl drawn; simpl events; auto; try lia.
  rewrite <- app_assoc.
  replace (0 + Z.of_nat (Z.to_nat (maxRetries - 1))) with (maxRetries - 1)
    by lia.
  replace (Z.to_nat maxRetries) with (S (Z.to_nat (maxRetries - 1))) by lia.
  now rewrite Nat.add_succ_r.
Qed.



(** The delay of an attempt lies between [baseDelay * 2^attempt] and
    that plus 1000, both ends included. *)
Lemma delay_range (attempt : Z) (d : nat) :
  0 <= baseDelay -> 0 <= attempt ->
  baseDelay * 2 ^ attempt + 1000 <= 2 ^ 53 ->
  (0 <= random d)%Q /\ (random d < 1)%Q ->
  (inject_Z (baseDelay * 2 ^ attempt)
   <= delayAt random baseDelay attempt d)%Q
  /\ (delayAt random baseDelay attempt d
      <= inject_Z (baseDelay * 2 ^ attempt + 1000))%Q.
Proof.
  intros Hb Ha Hmax [H0 H1]. unfold delayAt.
  apply rounded_sum_range; auto.
  apply Z.mul_nonneg_nonneg; [exact Hb | apply Z.pow_nonneg; lia].
Qed.

End Loop.

(** The defaults of the two optional parameters. *)
Lemma fetchWithBackoff_defaults (fetchFn : M Response) :
  fetchWithBackoff random fetchFn None None =
  fetchWithBackoff random fetchFn (Some 5) (Some 1000).
Proof. reflexivity. Qed.


(** A response that one iteration returns is [ok], whatever the request
    function does. *)
Lemma iteration_returns_ok (fetchFn : M Response) (attempt : Z)
  (w w' : World) (r : Response) :
  catch (attemptOnce fetchFn) (attemptFailed attempt) w = (inr (Some r), w') ->
  ok r = true.
Proof.
  unfold catch, attemptOnce, attemptFailed, bind, console, emit, ret, throw.
  destruct (fetchFn w) as [[e | resp] w0]; [discriminate |].
  destruct (ok resp) eqn:Hok; [intro H; inversion H; subst; exact Hok |].
  destruct ((status resp >=? 400) && (status resp <? 500)); [discriminate |].
  destruct (status resp =? 429); discriminate.
Qed.

Lemma loop_returns_ok (fetchFn : M Response) (maxRetries baseDelay : Z)
  (n : nat) : forall (attempt : Z) (w w' : World) (r : Response),
  (Z.to_nat (maxRetries - attempt) <= n)%nat ->
  backoffLoop random fetchFn maxRetries baseDelay attempt w = (inr r, w') ->
  ok r = true.
Proof.
  induction n as [| n IH]; intros attempt w w' r Hn.
  - rewrite backoffLoop_exit by lia. discriminate.
  - destruct (Z_lt_dec attempt maxRetries) as [Hlt | Hge].
    2:{ rewrite backoffLoop_exit by lia. discriminate. }
    rewrite backoffLoop_enter by lia. unfold bind at 1.
    destruct (catch (attemptOnce fetchFn) (attemptFailed attempt) w)
      as [[e | [r0 |]] w1] eqn:Hit.
    + discriminate.
    + intro H. inversion H; subst. eapply iteration_returns_ok, Hit.
    + destruct (attempt =? maxRetries - 1); [discriminate |].
      unfold bind, backoffDelay, Math_random, sleep, emit, ret. simpl.
      apply IH. lia.
Qed.

(** C3. Once [k] attempts have failed and the next one, still within the
    budget, answers with a status from 200 to 299, [fetchWithBackoff]
    returns that very response: the request that obtained it is the last
    event of the call, after [k] sleeps and [k+1] requests in all, so no
    sleep and no request follows it.  Conversely a response that
    [fetchWithBackoff] returns, for any request function and any policy,
    has a status from 200 to 299. *)
Theorem success_returns_at_once
  (maxRetries baseDelay : Z) (w : World) (k : nat) (r : Response) :
  Z.of_nat k < maxRetries ->
  (forall i, (i < k)%nat -> failing (upstream (fetched w + i)) = true) ->
  upstream (fetched w + k) = inr r ->
  200 <= status r <= 299 ->
  (exists t,
     fetchWithBackoff random (fetch upstream req)
       (Some maxRetries) (Some baseDelay) w
     = (inr r,
        mkWorld (fetched w + S k) (drawn w + k)
          (events w ++ t ++ [EvFetch req]))
     /\ attempts t = k /\ List.length (sleeps t) = k)
  /\ (forall (fetchFn : M Response) (policyMax policyBase : option Z)
        (w0 w1 : World) (r1 : Response),
        fetchWithBackoff random fetchFn policyMax policyBase w0 = (inr r1, w1) ->
        200 <= status r1 <= 299).
Proof.
  intros Hk Hf Hu Hs. split.
  - exists (failedRounds upstream random req baseDelay k 0
              (fetched w) (drawn w)).
    split; [| split].
    + unfold fetchWithBackoff.
      rewrite (loop_rounds maxRetries baseDelay k) by (auto; lia).
      rewrite (loop_ok maxRetries baseDelay _ _ r); simpl fetched;
        simpl drawn; simpl events; auto; try lia.
      * now rewrite <- app_assoc, Nat.add_succ_r.
      * now apply ok_iff.
    + apply attempts_failedRounds.
    + apply sleeps_failedRounds.
  - intros fetchFn pm pb w0 w1 r1 H. apply ok_iff.
    unfold fetchWithBackoff in H. eapply loop_returns_ok; [| exact H].
    apply Nat.le_refl.
Qed.

(** C10. With [maxRetries] at most 0 the condition of the loop is false
    from the start: the call throws the error of exhausted retries and
    leaves the world as it was, so the request function is not invoked
    and nothing is slept. *)
Theorem no_budget_fails_at_once
  (fetchFn : M Response) (maxRetries : Z) (baseDelay : option Z) (w : World) :
  maxRetries <= 0 ->
  fetchWithBackoff random fetchFn (Some maxRetries) baseDelay w
  = (inl exhausted, w).
Proof.
  intro H. unfold fetchWithBackoff. now rewrite backoffLoop_exit by lia.
Qed.

Lemma warningFor_not_rate_limited (attempt : Z) (o : Error + Response) :
  warningFor attempt o <> rateLimitedWarning.
Proof.
  unfold warningFor, retryWarning, serverWarning, rateLimitedWarning.
  destruct o as [e | r];
    [| destruct ((status r >=? 400) && (status r <? 500))];
    cbn [js app]; intro H; inversion H.
Qed.

Lemma loop_never_rate_limited (maxRetries baseDelay : Z) (n : nat) :
  forall (attempt : Z) (w : World),
  (Z.to_nat (maxRetries - attempt) <= n)%nat ->
  exists t,
    added w
      (snd (backoffLoop random (fetch upstream req) maxRetries baseDelay
              attempt w)) t
    /\ ~ In rateLimitedEvent t.
Proof.
  unfold added.
  induction n as [| n IH]; intros attempt w Hn.
  - rewrite backoffLoop_exit by lia. exists []. simpl.
    split; [now rewrite app_nil_r | tauto].
  - destruct (Z_lt_dec attempt maxRetries) as [Hlt | Hge].
    2:{ rewrite backoffLoop_exit by lia. exists []. simpl.
        split; [now rewrite app_nil_r | tauto]. }
    destruct (failing (upstream (fetched w))) eqn:Hf.
    + destruct (Z.eq_dec attempt (maxRetries - 1)) as [He | Hne].
      * rewrite loop_last by auto. eexists. split; [reflexivity |].
        simpl. intros [H | [H | []]]; [discriminate |].
        inversion H as [Hw]. now apply warningFor_not_rate_limited in Hw.
      * rewrite loop_round by (auto; lia).
        destruct (IH (attempt + 1)
                    (mkWorld (S (fetched w)) (S (drawn w))
                       (events w
                        ++ [EvFetch req;
                            EvConsole LWarn
                              [JStr (warningFor attempt
                                       (upstream (fetched w)))];
                            EvSleep (delayAt random baseDelay attempt
                                       (drawn w))]))) as (t & Ht & Hq);
          [lia |].
        simpl events in Ht. rewrite <- app_assoc in Ht.
        eexists. split; [exact Ht |].
        simpl. intros [H | [H | [H | H]]]; try discriminate; [| tauto].
        inversion H as [Hw]. now apply warningFor_not_rate_limited in Hw.
    + destruct (upstream (fetched w)) as [e | r] eqn:Hu; [discriminate |].
      simpl in Hf. apply negb_false_iff in Hf.
      rewrite (loop_ok maxRetries baseDelay attempt w r) by auto.
      eexists. split; [reflexivity |].
      simpl. intros [H | []]. discriminate.
Qed.

(** C9. A response with status exactly 429 meets the test for a client
    error first: the [try] block throws the client error.  The condition
    under which the branch that logs the rate-limit warning would run
    (not [ok], not a client error, status 429) is false for every
    response, and no call of [fetchWithBackoff], whatever the upstream
    answers, logs that warning. *)
Theorem rate_limit_branch_unreachable
  (maxRetries baseDelay : option Z) (w : World)
  (text : jsstring) (payload : Error + JSValue) :
  attemptOnce (settle (inr (mkResponse 429 text payload))) w
  = (inl (clientError (mkResponse 429 text payload)), w)
  /\ (forall r : Response,
        negb (ok r) && negb ((status r >=? 400) && (status r <? 500))
        && (status r =? 429) = false)
  /\ exists t,
       added w
         (snd (fetchWithBackoff random (fetch upstream req)
                 maxRetries baseDelay w)) t
       /\ ~ In (EvConsole LWarn [JStr rateLimitedWarning]) t.
Proof.
  split; [reflexivity | split].
  - intro r. destruct (status r =? 429) eqn:E.
    + apply Z.eqb_eq in E. unfold ok. rewrite E. reflexivity.
    + now rewrite andb_false_r.
  - unfold fetchWithBackoff. eapply loop_never_rate_limited. apply Nat.le_refl.
Qed.

End CallerFacts.

(** * Properties of the model of [JSON.parse] *)

Lemma skip_ws_le (s : jsstring) :
  (List.length (JSON.skip_ws s) <= List.length s)%nat.
Proof.
  induction s as [| c s IH]; simpl; [lia |].
  destruct (JSON.is_ws c); simpl; lia.
Qed.

Lemma string_body_lt (n : nat) : forall (s acc x r : jsstring),
  (List.length s <= n)%nat ->
  JSON.string_body s acc = Some (x, r) ->
  (List.length r < List.length s)%nat.
Proof.
  induction n as [| n IH]; intros s acc x r Hn H.
  - destruct s; [discriminate | simpl in Hn; lia].
  - destruct s as [| c s]; [discriminate |].
    simpl in H, Hn.
    destruct (N.eqb c 34); [inversion H; subst; simpl; lia |].
    destruct (N.eqb c 92).
    + destruct s as [| e s]; [discriminate |].
      destruct (N.eqb e 117).
      * destruct s as [| h1 [| h2 [| h3 [| h4 s]]]]; try discriminate.
        destruct (JSON.hex4 h1 h2 h3 h4); [| discriminate].
        apply IH in H; simpl in *; lia.
      * destruct (JSON.escape e); [| discriminate].
        apply IH in H; simpl in *; lia.
    + destruct (N.ltb c 32); [discriminate |].
      apply IH in H; simpl in *; lia.
Qed.

Lemma digits_le (s : jsstring) : forall (acc n v k : Z) (r : jsstring),
  JSON.digits s acc n = (v, k, r) ->
  (List.length r <= List.length s)%nat.
Proof.
  induction s as [| c s IH]; intros acc n v k r H; simpl in H.
  - inversion H; subst. simpl. lia.
  - destruct (JSON.is_digit c).
    + apply IH in H. simpl. lia.
    + inversion H; subst. simpl. lia.
Qed.

Lemma int_part_lt (s r : jsstring) (v : Z) :
  JSON.int_part s = Some (v, r) -> (List.length r < List.length s)%nat.
Proof.
  unfold JSON.int_part. destruct s as [| c s]; [discriminate |].
  destruct (N.eqb c 48); [intro H; inversion H; subst; simpl; lia |].
  destruct (JSON.is_digit c) eqn:Hd; [| discriminate].
  simpl. rewrite Hd.
  destruct (JSON.digits s _ _) as [[v' k'] r'] eqn:E.
  intro H. inversion H; subst. apply digits_le in E. simpl. lia.
Qed.

Lemma frac_part_le (m : Z) (s r : jsstring) (v n : Z) :
  JSON.frac_part m s = Some (v, n, r) -> (List.length r <= List.length s)%nat.
Proof.
  unfold JSON.frac_part. destruct s as [| c s].
  - intro H; inversion H; subst; simpl; lia.
  - destruct (N.eqb c 46).
    + destruct (JSON.digits s m 0) as [[v' k'] r'] eqn:E.
      destruct (k' =? 0)%Z; [discriminate |].
      intro H; inversion H; subst. apply digits_le in E. simpl. lia.
    + intro H; inversion H; subst; simpl; lia.
Qed.

Lemma exp_digits_le (neg : bool) (s r : jsstring) (v : Z) :
  JSON.exp_digits neg s = Some (v, r) -> (List.length r <= List.length s)%nat.
Proof.
  unfold JSON.exp_digits.
  destruct (JSON.digits s 0 0) as [[v' k'] r'] eqn:E.
  destruct (k' =? 0)%Z; [discriminate |].
  intro H; inversion H; subst. now apply digits_le in E.
Qed.

Lemma exp_part_le (s r : jsstring) (v : Z) :
  JSON.exp_part s = Some (v, r) -> (List.length r <= List.length s)%nat.
Proof.
  unfold JSON.exp_part. destruct s as [| c s].
  - intro H; inversion H; subst; simpl; lia.
  - destruct (N.eqb c 101 || N.eqb c 69).
    + destruct s as [| sg s]; [discriminate |].
      destruct (N.eqb sg 43); [| destruct (N.eqb sg 45)];
        intro H; apply exp_digits_le in H; simpl in *; lia.
    + intro H; inversion H; subst; simpl; lia.
Qed.

Lemma number_lt (s r : jsstring) (x : Q) :
  JSON.number s = Some (x, r) -> (List.length r < List.length s)%nat.
Proof.
  unfold JSON.number.
  set (sgn := match s with
              | [] => (false, s)
              | c :: r0 => if N.eqb c 45 then (true, r0) else (false, s)
              end).
  assert (Hs : (List.length (snd sgn) <= List.length s)%nat).
  { subst sgn. destruct s as [| c s]; simpl; [lia |].
    destruct (N.eqb c 45); simpl; lia. }
  destruct sgn as [neg s1]. simpl in Hs.
  destruct (JSON.int_part s1) as [[i s2] |] eqn:Ei; [| discriminate].
  destruct (JSON.frac_part i s2) as [[[m n] s3] |] eqn:Ef; [| discriminate].
  destruct (JSON.exp_part s3) as [[e s4] |] eqn:Ee; [| discriminate].
  intro H; inversion H; subst.
  apply int_part_lt in Ei. apply frac_part_le in Ef. apply exp_part_le in Ee.
  lia.
Qed.

Lemma keyword_length (w s r : jsstring) :
  JSON.keyword w s = Some r ->
  (List.length r + List.length w = List.length s)%nat.
Proof.
  revert s. induction w as [| a w IH]; intros s H; simpl in H.
  - inversion H; subst. simpl. lia.
  - destruct s as [| b s]; [discriminate |].
    destruct (N.eqb a b); [| discriminate]. apply IH in H. simpl. lia.
Qed.

Lemma skip_ws_cons (s r : jsstring) (c : N) :
  JSON.skip_ws s = c :: r -> (S (List.length r) <= List.length s)%nat.
Proof. intro H. pose proof (skip_ws_le s) as L. rewrite H in L. exact L. Qed.

Ltac steer :=
  repeat match goal with
         | E : ?x = _ |- context [?x] => rewrite E
         end.

Ltac refuel :=
  let m := fresh "m" in
  let Hm := fresh "Hm" in
  intros m Hm; destruct m as [| m]; [simpl in *; lia |];
  cbn [JSON.value JSON.elements JSON.members]; steer; cbn [option_map];
  try reflexivity.

Lemma value_step (n : nat) :
  elements_ok n -> members_ok n -> value_ok (S n).
Proof.
  intros He Hm s v r H.
  cbn [JSON.value] in H.
  destruct (JSON.skip_ws s) as [| c r0] eqn:Hs; [discriminate |].
  apply skip_ws_cons in Hs as Hl.
  destruct (c =? 123)%N eqn:C1.
  { destruct (JSON.skip_ws r0) as [| c' r'] eqn:Hs'; [discriminate |].
    apply skip_ws_cons in Hs' as Hl'.
    destruct (c' =? 125)%N eqn:C2.
    - inversion H; subst. split; [lia | refuel].
    - apply Hm in H. destruct H as [Hlt Hfuel].
      split; [lia | refuel]. apply Hfuel. lia. }
  destruct (c =? 91)%N eqn:C2.
  { destruct (JSON.skip_ws r0) as [| c' r'] eqn:Hs'; [discriminate |].
    apply skip_ws_cons in Hs' as Hl'.
    destruct (c' =? 93)%N eqn:C3.
    - inversion H; subst. split; [lia | refuel].
    - apply He in H. destruct H as [Hlt Hfuel].
      split; [lia | refuel]. apply Hfuel. lia. }
  destruct (c =? 34)%N eqn:C3.
  { destruct (JSON.string_body r0 []) as [[str r'] |] eqn:Hb; [| discriminate].
    inversion H; subst.
    apply (string_body_lt _ _ _ _ _ (Nat.le_refl _)) in Hb as Hl'.
    split; [lia | refuel]. }
  destruct (c =? 116)%N eqn:C4.
  { destruct (JSON.keyword (js "true") (c :: r0)) as [r' |] eqn:Hk;
      [| discriminate].
    inversion H; subst. apply keyword_length in Hk as Hl'. simpl in Hl'.
    split; [lia | refuel]. }
  destruct (c =? 102)%N eqn:C5.
  { destruct (JSON.keyword (js "false") (c :: r0)) as [r' |] eqn:Hk;
      [| discriminate].
    inversion H; subst. apply keyword_length in Hk as Hl'. simpl in Hl'.
    split; [lia | refuel]. }
  destruct (c =? 110)%N eqn:C6.
  { destruct (JSON.keyword (js "null") (c :: r0)) as [r' |] eqn:Hk;
      [| discriminate].
    inversion H; subst. apply keyword_length in Hk as Hl'. simpl in Hl'.
    split; [lia | refuel]. }
  destruct (JSON.number (c :: r0)) as [[x r'] |] eqn:Hn; [| discriminate].
  inversion H; subst. apply number_lt in Hn as Hl'. simpl in Hl'.
  split; [lia | refuel].
Qed.

Lemma elements_step (n : nat) :
  value_ok n -> elements_ok n -> elements_ok (S n).
Proof.
  intros Hv He s acc v r H.
  cbn [JSON.elements] in H.
  destruct (JSON.value n s) as [[v1 r1] |] eqn:E1; [| discriminate].
  destruct (Hv _ _ _ E1) as [Hlt1 Hfuel1].
  destruct (JSON.skip_ws r1) as [| c r2] eqn:Hs; [discriminate |].
  apply skip_ws_cons in Hs as Hl.
  destruct (c =? 44)%N eqn:C1.
  - destruct (He _ _ _ _ H) as [Hlt2 Hfuel2]. split; [lia |].
    intros m Hm; destruct m as [| m]; [simpl in *; lia |].
    cbn [JSON.elements]. rewrite Hfuel1 by lia. rewrite Hs, C1.
    apply Hfuel2. lia.
  - destruct (c =? 93)%N eqn:C2; [| discriminate].
    inversion H; subst. split; [lia |].
    intros m Hm; destruct m as [| m]; [simpl in *; lia |].
    cbn [JSON.elements]. rewrite Hfuel1 by lia. now rewrite Hs, C1, C2.
Qed.

Lemma members_step (n : nat) :
  value_ok n -> members_ok n -> members_ok (S n).
Proof.
  intros Hv Hm s acc v r H.
  cbn [JSON.members] in H.
  destruct (JSON.skip_ws s) as [| c r0] eqn:Hs; [discriminate |].
  apply skip_ws_cons in Hs as Hl.
  destruct (c =? 34)%N eqn:C1; [| discriminate].
  destruct (JSON.string_body r0 []) as [[k r1] |] eqn:Hb; [| discriminate].
  apply (string_body_lt _ _ _ _ _ (Nat.le_refl _)) in Hb as Hl1.
  destruct (JSON.skip_ws r1) as [| c1 r2] eqn:Hs1; [discriminate |].
  apply skip_ws_cons in Hs1 as Hl2.
  destruct (c1 =? 58)%N eqn:C2; [| discriminate].
  destruct (JSON.value n r2) as [[v1 r3] |] eqn:E1; [| discriminate].
  destruct (Hv _ _ _ E1) as [Hlt1 Hfuel1].
  destruct (JSON.skip_ws r3) as [| c3 r4] eqn:Hs3; [discriminate |].
  apply skip_ws_cons in Hs3 as Hl3.
  destruct (c3 =? 44)%N eqn:C3.
  - destruct (Hm _ _ _ _ H) as [Hlt2 Hfuel2]. split; [lia |].
    intros m Hm'; destruct m as [| m]; [simpl in *; lia |].
    cbn [JSON.members]. rewrite Hs, C1, Hb, Hs1, C2.
    rewrite Hfuel1 by lia. rewrite Hs3, C3. apply Hfuel2. lia.
  - destruct (c3 =? 125)%N eqn:C4; [| discriminate].
    inversion H; subst. split; [lia |].
    intros m Hm'; destruct m as [| m]; [simpl in *; lia |].
    cbn [JSON.members]. rewrite Hs, C1, Hb, Hs1, C2.
    rewrite Hfuel1 by lia. now rewrite Hs3, C3, C4.
Qed.

Lemma fuel_ok (n : nat) : value_ok n /\ elements_ok n /\ members_ok n.
Proof.
  induction n as [| n (Hv & He & Hm)].
  - split; [| split]; red; simpl; intros; discriminate.
  - split; [| split].
    + now apply value_step.
    + now apply elements_step.
    + now apply members_step.
Qed.

(** Fuel never decides: a value read with some fuel is read with the fuel
    [parse] gives. *)
Lemma parse_fuel_enough (n : nat) (s r : jsstring) (v : JSValue) :
  JSON.value n s = Some (v, r) ->
  JSON.value (2 * List.length s + 2) s = Some (v, r).
Proof.
  intro H. destruct (fuel_ok n) as (Hv & _ & _).
  destruct (Hv _ _ _ H) as [_ Hfuel]. apply Hfuel. lia.
Qed.

Lemma parse_complete (n : nat) (s r : jsstring) (v : JSValue) :
  JSON.value n s = Some (v, r) -> JSON.skip_ws r = [] ->
  JSON.parse s = Some v.
Proof.
  intros H Hr. unfold JSON.parse.
  now rewrite (parse_fuel_enough n s r v H), Hr.
Qed.

(** * Properties of the response extractor *)

Section Searching.

Context {A : Type} (p : A -> bool).

Lemma firstIndex_lower (l : list A) : -1 <= firstIndex p l.
Proof.
  induction l as [| x l IH]; simpl; [lia |].
  destruct (p x); [lia |]. destruct (firstIndex p l =? -1); lia.
Qed.

Lemma lastIndex_lower (l : list A) : -1 <= lastIndex p l.
Proof.
  induction l as [| x l IH]; simpl; [lia |].
  destruct (lastIndex p l =? -1); [destruct (p x) |]; lia.
Qed.

Lemma firstIndex_absent (l : list A) :
  (forall x, In x l -> p x = false) -> firstIndex p l = -1.
Proof.
  induction l as [| x l IH]; intro H; simpl; [reflexivity |].
  rewrite (H x) by now left.
  rewrite IH by (intros; apply H; now right). reflexivity.
Qed.

Lemma lastIndex_absent (l : list A) :
  (forall x, In x l -> p x = false) -> lastIndex p l = -1.
Proof.
  induction l as [| x l IH]; intro H; simpl; [reflexivity |].
  rewrite IH by (intros; apply H; now right). simpl.
  now rewrite (H x) by now left.
Qed.

Lemma firstIndex_found (pre rest : list A) (c : A) :
  (forall x, In x pre -> p x = false) -> p c = true ->
  firstIndex p (pre ++ c :: rest) = Z.of_nat (List.length pre).
Proof.
  intros Hpre Hc. induction pre as [| x pre IH]; simpl.
  - now rewrite Hc.
  - rewrite (Hpre x) by now left.
    rewrite IH by (intros; apply Hpre; now right).
    destruct (Z.of_nat (List.length pre) =? -1) eqn:E; lia.
Qed.

Lemma lastIndex_found (l post : list A) (c : A) :
  (forall x, In x post -> p x = false) -> p c = true ->
  lastIndex p (l ++ c :: post) = Z.of_nat (List.length l).
Proof.
  intros Hpost Hc. induction l as [| x l IH]; simpl.
  - rewrite lastIndex_absent by exact Hpost. simpl. now rewrite Hc.
  - rewrite IH.
    destruct (Z.of_nat (List.length l) =? -1) eqn:E; lia.
Qed.

End Searching.

Lemma substring_middle (a b c : jsstring) :
  substring (a ++ b ++ c) (Z.of_nat (List.length a))
    (Z.of_nat (List.length a) + Z.of_nat (List.length b)) = b.
Proof.
  unfold substring. rewrite !length_app.
  set (la := List.length a). set (lb := List.length b).
  set (lc := List.length c).
  replace (Z.min (Z.max (Z.of_nat la) 0) (Z.of_nat (la + (lb + lc))))
    with (Z.of_nat la) by lia.
  replace (Z.min (Z.max (Z.of_nat la + Z.of_nat lb) 0)
             (Z.of_nat (la + (lb + lc))))
    with (Z.of_nat (la + lb)) by lia.
  replace (Z.to_nat (Z.max (Z.of_nat la) (Z.of_nat (la + lb))
                     - Z.min (Z.of_nat la) (Z.of_nat (la + lb))))
    with lb by lia.
  replace (Z.to_nat (Z.min (Z.of_nat la) (Z.of_nat (la + lb)))) with la by lia.
  subst la lb lc.
  rewrite skipn_app, skipn_all, Nat.sub_diag. simpl.
  rewrite firstn_app, firstn_all, Nat.sub_diag. simpl.
  now rewrite app_nil_r.
Qed.

Lemma absent_eqb (c : N) (l : jsstring) :
  ~ In c l -> forall x, In x l -> N.eqb c x = false.
Proof.
  intros H x Hx. apply N.eqb_neq. intro E. subst. contradiction.
Qed.

(** A text with an opening brace and, after it, a closing one: what the
    two searches find and what is cut out. *)
Lemma brace_slice (pre mid post : jsstring) :
  ~ In lbrace pre -> ~ In rbrace post ->
  let s := pre ++ lbrace :: mid ++ rbrace :: post in
  indexOf s lbrace = Z.of_nat (List.length pre)
  /\ lastIndexOf s rbrace = Z.of_nat (List.length pre + 1 + List.length mid)
  /\ substring s (indexOf s lbrace) (lastIndexOf s rbrace + 1)
     = lbrace :: mid ++ [rbrace].
Proof.
  intros Hpre Hpost s.
  assert (Hi : indexOf s lbrace = Z.of_nat (List.length pre)).
  { unfold indexOf, s. apply firstIndex_found.
    - now apply absent_eqb.
    - apply N.eqb_refl. }
  assert (Hj : lastIndexOf s rbrace
               = Z.of_nat (List.length pre + 1 + List.length mid)).
  { unfold lastIndexOf, s.
    replace (pre ++ lbrace :: mid ++ rbrace :: post)
      with ((pre ++ lbrace :: mid) ++ rbrace :: post)
      by (now rewrite <- app_assoc).
    rewrite lastIndex_found.
    - rewrite length_app. simpl. f_equal. lia.
    - now apply absent_eqb.
    - apply N.eqb_refl. }
  split; [exact Hi | split; [exact Hj |]].
  rewrite Hi, Hj. unfold s.
  replace (pre ++ lbrace :: mid ++ rbrace :: post)
    with (pre ++ (lbrace :: mid ++ [rbrace]) ++ post)
    by (simpl; now rewrite <- app_assoc).
  replace (Z.of_nat (List.length pre + 1 + List.length mid) + 1)
    with (Z.of_nat (List.length pre)
          + Z.of_nat (List.length (lbrace :: mid ++ [rbrace])))
    by (simpl; rewrite length_app; simpl; lia).
  apply substring_middle.
Qed.

Section ExtractorFacts.

Variable JSON_parse : jsstring -> jsstring + JSValue.
Variable JSON_stringify : Z -> JSValue -> Error + jsstring.
Variable describe : Fault -> jsstring.

(** The three events of a failed extraction: the text as received, the
    message of what was thrown, the text again. *)
Lemma respondWithText_failure (jsonText : JSValue) (e : Error) (w : World) :
  extractJson JSON_parse describe jsonText
    (mkWorld (fetched w) (drawn w)
       (events w ++ [EvConsole LLog
                       [JStr (js "AI Response (Raw JSON Text):"); jsonText]]))
  = (inl e,
     mkWorld (fetched w) (drawn w)
       (events w ++ [EvConsole LLog
                       [JStr (js "AI Response (Raw JSON Text):"); jsonText]])) ->
  respondWithText JSON_parse JSON_stringify describe jsonText w
  = (inr (mkReply 500 (errorBody "Failed to parse AI response.")),
     mkWorld (fetched w) (drawn w)
       (events w
        ++ [EvConsole LLog
              [JStr (js "AI Response (Raw JSON Text):"); jsonText];
            EvConsole LError
              [JStr (js "Failed to parse JSON response from AI:");
               JStr (message e)];
            EvConsole LError [JStr (js "Raw text was:"); jsonText]])).
Proof.
  intro H.
  unfold respondWithText, bind at 1, console at 1, emit at 1.
  unfold catch, bind at 1. rewrite H.
  unfold bind, console, emit, ret. simpl.
  now rewrite <- !app_assoc.
Qed.

(** The extraction on a text with an opening brace and a closing brace
    after it is [JSON.parse] on the slice. *)
Lemma extractJson_slice (pre mid post : jsstring) (w : World) :
  ~ In lbrace pre -> ~ In rbrace post ->
  extractJson JSON_parse describe
    (JStr (pre ++ lbrace :: mid ++ rbrace :: post)) w
  = parseOutcome JSON_parse (lbrace :: mid ++ [rbrace]) w.
Proof.
  intros Hpre Hpost.
  destruct (brace_slice pre mid post Hpre Hpost) as (Hi & Hj & Hs).
  unfold extractJson. cbv zeta in *. rewrite Hs, Hi, Hj.
  replace (Z.of_nat (List.length pre) =? -1) with false
    by (symmetry; apply Z.eqb_neq; lia).
  replace (Z.of_nat (List.length pre + 1 + List.length mid) =? -1)
    with false by (symmetry; apply Z.eqb_neq; lia).
  replace (Z.of_nat (List.length pre + 1 + List.length mid)
           <? Z.of_nat (List.length pre))
    with false by (symmetry; apply Z.ltb_ge; lia).
  unfold parseOutcome, ret, throw.
  destruct (JSON_parse (lbrace :: mid ++ [rbrace])); reflexivity.
Qed.

(** What the branch does with a value the extraction gave: [res.json]
    serialises it and sends it with 200, or throws while it serialises,
    and then the [catch] of the extraction answers as for a failure of
    [JSON.parse]. *)
Lemma respondWithText_value (jsonText v : JSValue) (w : World) :
  extractJson JSON_parse describe jsonText
    (mkWorld (fetched w) (drawn w)
       (events w ++ [EvConsole LLog
                       [JStr (js "AI Response (Raw JSON Text):"); jsonText]]))
  = (inr v,
     mkWorld (fetched w) (drawn w)
       (events w ++ [EvConsole LLog
                       [JStr (js "AI Response (Raw JSON Text):"); jsonText]])) ->
  respondWithText JSON_parse JSON_stringify describe jsonText w
  = match JSON_stringify 0 v with
    | inr _ =>
        (inr (mkReply 200 v),
         mkWorld (fetched w) (drawn w)
           (events w
            ++ [EvConsole LLog
                  [JStr (js "AI Response (Raw JSON Text):"); jsonText]]))
    | inl e =>
        (inr (mkReply 500 (errorBody "Failed to parse AI response.")),
         mkWorld (fetched w) (drawn w)
           (events w
            ++ [EvConsole LLog
                  [JStr (js "AI Response (Raw JSON Text):"); jsonText];
                EvConsole LError
                  [JStr (js "Failed to parse JSON response from AI:");
                   JStr (message e)];
                EvConsole LError [JStr (js "Raw text was:"); jsonText]]))
    end.
Proof.
  intro H.
  unfold respondWithText, bind at 1, console at 1, emit at 1.
  unfold catch, bind at 1. rewrite H.
  unfold bind at 1, settle.
  destruct (JSON_stringify 0 v) as [e | shown]; [| reflexivity].
  unfold bind, console, emit, ret. simpl.
  now rewrite <- !app_assoc.
Qed.

(** C4, as the code behaves. When the text has an opening brace and a
    closing brace after it, and [JSON.parse] accepts what lies from the
    first opening brace to the last closing one, the extraction gives
    the parsed value, whatever that value is: nothing is asked of its
    [price] or of any other key.  The route answers 200 with that value
    when [res.json] can serialise it; when [res.json] throws, the error
    is caught with those of the extraction, and the route logs its
    message and the text and answers 500 with the message of the parse
    failure. *)
Theorem parsed_slice_is_sent_unchecked
  (pre mid post : jsstring) (v : JSValue) (w : World) :
  ~ In lbrace pre -> ~ In rbrace post ->
  JSON_parse (lbrace :: mid ++ [rbrace]) = inr v ->
  let jsonText := JStr (pre ++ lbrace :: mid ++ rbrace :: post) in
  extractJson JSON_parse describe jsonText w = (inr v, w)
  /\ respondWithText JSON_parse JSON_stringify describe jsonText w
     = match JSON_stringify 0 v with
       | inr _ =>
           (inr (mkReply 200 v),
            mkWorld (fetched w) (drawn w)
              (events w ++ [EvConsole LLog
                              [JStr (js "AI Response (Raw JSON Text):");
                               jsonText]]))
       | inl e =>
           (inr (mkReply 500 (errorBody "Failed to parse AI response.")),
            mkWorld (fetched w) (drawn w)
              (events w
               ++ [EvConsole LLog
                     [JStr (js "AI Response (Raw JSON Text):"); jsonText];
                   EvConsole LError
                     [JStr (js "Failed to parse JSON response from AI:");
                      JStr (message e)];
                   EvConsole LError [JStr (js "Raw text was:"); jsonText]]))
       end.
Proof.
  intros Hpre Hpost Hv jsonText.
  destruct (brace_slice pre mid post Hpre Hpost) as (Hi & Hj & Hs).
  assert (He : forall w0, extractJson JSON_parse describe jsonText w0
                          = (inr v, w0)).
  { intro w0. unfold extractJson, jsonText. rewrite Hs, Hv.
    rewrite Hi, Hj.
    replace (Z.of_nat (List.length pre) =? -1) with false
      by (symmetry; apply Z.eqb_neq; lia).
    replace (Z.of_nat (List.length pre + 1 + List.length mid) =? -1)
      with false by (symmetry; apply Z.eqb_neq; lia).
    replace (Z.of_nat (List.length pre + 1 + List.length mid)
             <? Z.of_nat (List.length pre))
      with false by (symmetry; apply Z.ltb_ge; lia).
    reflexivity. }
  split; [apply He |].
  apply respondWithText_value, He.
Qed.

(** C5. A text without an opening brace, or without a closing brace, or
    whose last closing brace comes before its first opening brace, makes
    the extraction throw the error of the object not found, whatever
    [JSON.parse] would do with any text: it is not consulted.  The route
    logs that reason and the text, and answers 500. *)
Theorem no_braces_no_object (jsonText : jsstring) (w : World) :
  ~ In lbrace jsonText \/ ~ In rbrace jsonText
  \/ lastIndexOf jsonText rbrace < indexOf jsonText lbrace ->
  extractJson JSON_parse describe (JStr jsonText) w = (inl notFound, w)
  /\ respondWithText JSON_parse JSON_stringify describe (JStr jsonText) w
     = (inr (mkReply 500 (errorBody "Failed to parse AI response.")),
        mkWorld (fetched w) (drawn w)
          (events w
           ++ [EvConsole LLog
                 [JStr (js "AI Response (Raw JSON Text):"); JStr jsonText];
               EvConsole LError
                 [JStr (js "Failed to parse JSON response from AI:");
                  JStr (js "Valid JSON object not found in AI response.")];
               EvConsole LError
                 [JStr (js "Raw text was:"); JStr jsonText]])).
Proof.
  intro H.
  assert (He : forall w0, extractJson JSON_parse describe (JStr jsonText) w0
                          = (inl notFound, w0)).
  { intro w0. unfold extractJson.
    replace ((indexOf jsonText lbrace =? -1)
             || (lastIndexOf jsonText rbrace =? -1)
             || (lastIndexOf jsonText rbrace <? indexOf jsonText lbrace))
      with true; [reflexivity |].
    symmetry. rewrite !orb_true_iff, !Z.eqb_eq, Z.ltb_lt.
    destruct H as [H | [H | H]].
    - left; left. apply firstIndex_absent. now apply absent_eqb.
    - left; right. apply lastIndex_absent. now apply absent_eqb.
    - now right. }
  split; [apply He |].
  apply (respondWithText_failure (JStr jsonText) notFound w), He.
Qed.

(** C6, as the code behaves. When the text has an opening brace and a
    closing brace after it, and [JSON.parse] rejects what lies from the
    first opening brace to the last closing one, the extraction throws
    the SyntaxError of [JSON.parse]; the route logs its message and the
    original text, not the slice, and answers 500. *)
Theorem unparsable_slice_reports_failure
  (pre mid post : jsstring) (m : jsstring) (w : World) :
  ~ In lbrace pre -> ~ In rbrace post ->
  JSON_parse (lbrace :: mid ++ [rbrace]) = inl m ->
  let jsonText := JStr (pre ++ lbrace :: mid ++ rbrace :: post) in
  extractJson JSON_parse describe jsonText w = (inl (mkError ESyntaxError m), w)
  /\ respondWithText JSON_parse JSON_stringify describe jsonText w
     = (inr (mkReply 500 (errorBody "Failed to parse AI response.")),
        mkWorld (fetched w) (drawn w)
          (events w
           ++ [EvConsole LLog
                 [JStr (js "AI Response (Raw JSON Text):"); jsonText];
               EvConsole LError
                 [JStr (js "Failed to parse JSON response from AI:"); JStr m];
               EvConsole LError [JStr (js "Raw text was:"); jsonText]])).
Proof.
  intros Hpre Hpost Hm jsonText.
  destruct (brace_slice pre mid post Hpre Hpost) as (Hi & Hj & Hs).
  assert (He : forall w0, extractJson JSON_parse describe jsonText w0
                          = (inl (mkError ESyntaxError m), w0)).
  { intro w0. unfold extractJson, jsonText. rewrite Hs, Hm.
    rewrite Hi, Hj.
    replace (Z.of_nat (List.length pre) =? -1) with false
      by (symmetry; apply Z.eqb_neq; lia).
    replace (Z.of_nat (List.length pre + 1 + List.length mid) =? -1)
      with false by (symmetry; apply Z.eqb_neq; lia).
    replace (Z.of_nat (List.length pre + 1 + List.length mid)
             <? Z.of_nat (List.length pre))
      with false by (symmetry; apply Z.ltb_ge; lia).
    reflexivity. }
  split; [apply He |].
  apply (respondWithText_failure jsonText (mkError ESyntaxError m) w), He.
Qed.

End ExtractorFacts.

(** ** Answers nested deeper than the engine can serialise *)

Lemma nested_head (n : nat) (x : jsstring) :
  exists h t, nested n ++ x = h :: t
              /\ JSON.is_ws h = false /\ (h =? 93)%N = false.
Proof.
  destruct n; simpl; eexists; eexists; (split; [reflexivity | split; reflexivity]).
Qed.

(** [JSON.parse] has no bound on nesting: it reads a 1 inside any number
    of brackets. *)
Lemma nested_value (n : nat) :
  forall (c : N) (rest : jsstring),
  c = 93%N \/ c = 125%N ->
  JSON.value (2 * n + 1) (nested n ++ c :: rest) = Some (tower n, c :: rest).
Proof.
  induction n as [| n IH]; intros c rest Hc.
  - destruct Hc; subst; reflexivity.
  - replace (2 * S n + 1)%nat with (S (S (2 * n + 1))) by lia.
    change (nested (S n) ++ c :: rest)
      with (91%N :: (nested n ++ [93%N]) ++ c :: rest).
    rewrite <- app_assoc. change ([93%N] ++ c :: rest) with (93%N :: c :: rest).
    destruct (nested_head n (93%N :: c :: rest)) as (h & t & E & Hw & H93).
    cbn [JSON.value JSON.skip_ws].
    change (JSON.is_ws 91) with false. cbv iota.
    change (91 =? 123)%N with false. change (91 =? 91)%N with true. cbv iota.
    rewrite E. cbn [JSON.skip_ws]. rewrite Hw, H93. rewrite <- E.
    cbn [JSON.elements]. rewrite IH by now left.
    reflexivity.
Qed.

Lemma deepAnswer_parses (n : nat) :
  JSON.parse (deepAnswer n) = Some (deepValue n).
Proof.
  apply (parse_complete (S (S (2 * n + 1))) _ []); [| reflexivity].
  unfold deepAnswer.
  change (js "{" ++ quoted "price" ++ js ":" ++ nested n ++ js "}")
    with (123%N :: 34%N :: js "price" ++ 34%N :: 58%N :: nested n ++ [125%N]).
  cbn [JSON.value JSON.skip_ws].
  change (JSON.is_ws 123) with false. cbv iota.
  change (123 =? 123)%N with true. cbv iota.
  change (js "price") with [112%N; 114%N; 105%N; 99%N; 101%N].
  cbn [app JSON.skip_ws].
  change (JSON.is_ws 34) with false. cbv iota.
  change (34 =? 125)%N with false. cbv iota.
  cbn [JSON.members JSON.skip_ws].
  change (JSON.is_ws 34) with false. cbv iota.
  change (34 =? 34)%N with true. cbv iota.
  cbn -[JSON.value nested].
  change (n + (n + 0) + 1)%nat with (2 * n + 1)%nat.
  rewrite nested_value by now right.
  reflexivity.
Qed.

Lemma depth_tower (n : nat) : depth (tower n) = n.
Proof.
  induction n as [| n IH]; [reflexivity |].
  cbn [tower depth]. now rewrite IH, Nat.max_0_r.
Qed.

(** The object is one level deeper than its price. *)
Lemma deepValue_overflows (limit : nat) (indent : Z) :
  stackEngine limit indent (deepValue limit) = inl stackOverflow.
Proof.
  unfold stackEngine, deepValue. cbn [depth].
  rewrite depth_tower, Nat.max_0_r.
  replace (S limit <=? limit)%nat with false; [reflexivity |].
  symmetry. apply Nat.leb_gt. lia.
Qed.

(** Whatever depth the stack of the engine holds, some answer is one
    level deeper: [JSON.parse] accepts its slice, [res.json] throws on
    the value, and the route answers 500. *)
Lemma every_stack_is_too_shallow
  (syntaxMessage : jsstring -> jsstring) (describe : Fault -> jsstring)
  (limit : nat) (w : World) :
  JSON_parse_std syntaxMessage (deepAnswer limit) = inr (deepValue limit)
  /\ fst (respondWithText (JSON_parse_std syntaxMessage) (stackEngine limit)
            describe (JStr (deepAnswer limit)) w)
     = inr (mkReply 500 (errorBody "Failed to parse AI response.")).
Proof.
  assert (Hp : JSON_parse_std syntaxMessage (deepAnswer limit)
               = inr (deepValue limit))
    by (unfold JSON_parse_std; now rewrite deepAnswer_parses).
  split; [exact Hp |].
  rewrite (respondWithText_value _ _ _ _ (deepValue limit)).
  - now rewrite deepValue_overflows.
  - change (deepAnswer limit)
      with ([] ++ lbrace
               :: (quoted "price" ++ js ":" ++ nested limit) ++ rbrace :: []).
    rewrite extractJson_slice by (simpl; tauto).
    unfold parseOutcome.
    change (lbrace :: (quoted "price" ++ js ":" ++ nested limit) ++ [rbrace])
      with (deepAnswer limit).
    now rewrite Hp.
Qed.

(** C4, as stated, fails on an answer nested deeper than the engine can
    serialise.  [JSON.parse] accepts the slice of the answer below, an
    object whose price is a 1 inside a hundred brackets; on an engine
    whose stack holds a hundred levels [res.json] throws a RangeError on
    that object, one level deeper; the [catch] of the extraction takes
    it, and the route answers 500 with the message of the parse
    failure, not 200 with the value.  The depth is that of the example
    only: [every_stack_is_too_shallow] has an answer for every other. *)
Lemma deep_value_is_parsed_but_not_sent :
  let text := js "Here is the data: " ++ deepAnswer 100 in
  let run :=
    respondWithText (JSON_parse_std plainMessage) (stackEngine 100)
      plainFault (JStr text) initial in
  JSON_parse_std plainMessage
    (substring text (indexOf text lbrace) (lastIndexOf text rbrace + 1))
  = inr (deepValue 100)
  /\ extractJson (JSON_parse_std plainMessage) plainFault (JStr text) initial
     = (inr (deepValue 100), initial)
  /\ stackEngine 100 0 (deepValue 100) = inl stackOverflow
  /\ fst run = inr (mkReply 500 (errorBody "Failed to parse AI response."))
  /\ fst run <> inr (mkReply 200 (deepValue 100))
  /\ events (snd run)
     = [EvConsole LLog
          [JStr (js "AI Response (Raw JSON Text):"); JStr text];
        EvConsole LError
          [JStr (js "Failed to parse JSON response from AI:");
           JStr (js "Maximum call stack size exceeded")];
        EvConsole LError [JStr (js "Raw text was:"); JStr text]].
Proof.
  vm_compute. repeat split. discriminate.
Qed.

(** C6, as stated, fails on its own example. The text [{invalid json]
    has no closing brace, so there is no slice to parse: what is thrown
    and logged is the error of the object not found, the one of C5, and
    not a SyntaxError of [JSON.parse]. *)
Lemma unclosed_brace_is_not_malformed :
  let run :=
    respondWithText (JSON_parse_std plainMessage) plainStringify plainFault
      (JStr (js "{invalid json")) initial in
  extractJson (JSON_parse_std plainMessage) plainFault
    (JStr (js "{invalid json")) initial = (inl notFound, initial)
  /\ name notFound <> ESyntaxError
  /\ events (snd run)
     = [EvConsole LLog
          [JStr (js "AI Response (Raw JSON Text):");
           JStr (js "{invalid json")];
        EvConsole LError
          [JStr (js "Failed to parse JSON response from AI:");
           JStr (js "Valid JSON object not found in AI response.")];
        EvConsole LError
          [JStr (js "Raw text was:"); JStr (js "{invalid json")]].
Proof.
  vm_compute. repeat split. discriminate.
Qed.

(** C7. On the fenced answer of the specification the extraction gives
    the object of the four fields: the prose before the object and the
    fence around it fall outside the slice.  The route answers 200 with
    that object on every engine that can serialise it. *)
Theorem wheat_round_trip
  (syntaxMessage : jsstring -> jsstring)
  (JSON_stringify : Z -> JSValue -> Error + jsstring)
  (describe : Fault -> jsstring) :
  substring wheatAnswer (indexOf wheatAnswer lbrace)
    (lastIndexOf wheatAnswer rbrace + 1) = wheatObject
  /\ extractJson (JSON_parse_std syntaxMessage) describe (JStr wheatAnswer)
       initial
     = (inr wheatResult, initial)
  /\ (forall shown : jsstring,
      JSON_stringify 0 wheatResult = inr shown ->
      fst (respondWithText (JSON_parse_std syntaxMessage) JSON_stringify
             describe (JStr wheatAnswer) initial)
      = inr (mkReply 200 wheatResult)).
Proof.
  split; [vm_compute; reflexivity |].
  split; [vm_compute; reflexivity |].
  intros shown H.
  rewrite (respondWithText_value (JSON_parse_std syntaxMessage)
             JSON_stringify describe (JStr wheatAnswer) wheatResult initial)
    by (vm_compute; reflexivity).
  now rewrite H.
Qed.

(** C8. When the credential is unset or empty, either route answers 500
    with its message about the configuration after one line on the
    error console and nothing else: no request is issued, nothing is
    slept, [Math.random] is not called, whatever retry policy the call
    of [fetchWithBackoff] would have been given. *)
Theorem missing_key_short_circuits
  (upstream : nat -> Error + Response) (random : nat -> Q)
  (JSON_parse : jsstring -> jsstring + JSValue)
  (JSON_stringify : Z -> JSValue -> Error + jsstring)
  (describe : Fault -> jsstring)
  (genai : nat -> Error + option jsstring)
  (maxRetries baseDelay : option Z)
  (key : option jsstring) (name : jsstring) (w : World) :
  keyMissing key = true ->
  getPriceWith upstream random JSON_parse JSON_stringify describe
    maxRetries baseDelay key name w
  = (inr (mkReply 500
            (errorBody "Server configuration error: AI Key is missing.")),
     mkWorld (fetched w) (drawn w)
       (events w
        ++ [EvConsole LError
              [JStr (js "GEMINI_API_KEY is not set in your .env file.")]]))
  /\ getPriceIndex genai key name w
     = (inr (mkReply 500
               (errorBody "Server configuration error: AI Key missing.")),
        mkWorld (fetched w) (drawn w)
          (events w
           ++ [EvConsole LError
                 [JStr (js "GEMINI_API_KEY is not set in environment variables.")]])).
Proof.
  intro H. unfold getPriceWith, getPriceIndex, catch. rewrite H.
  split; reflexivity.
Qed.

(** Client errors use the budget like any other failure. *)
Lemma client_rejections_are_retried
  (upstream : nat -> Error + Response) (random : nat -> Q) (req : Request)
  (maxRetries baseDelay : Z) (w : World) :
  1 <= maxRetries ->
  (forall n, clientRejection (upstream n)) ->
  let run :=
    fetchWithBackoff random (fetch upstream req)
      (Some maxRetries) (Some baseDelay) w in
  fst run = inl exhausted
  /\ fetched (snd run) = (fetched w + Z.to_nat maxRetries)%nat.
Proof.
  intros Hm Hc. cbv zeta. unfold fetchWithBackoff.
  rewrite loop_exhausts; [split; reflexivity | exact Hm |].
  intro n. apply clientRejection_failing, Hc.
Qed.

(** C1, as the code behaves. An upstream that answers 404 to every request,
    called with the default policy: the client error thrown inside the
    [try] block is caught by the [catch] of the same iteration, so the
    call goes on to issue five requests and to sleep four times, and what
    it throws in the end is the error of exhausted retries, not the
    client error. *)
Theorem client_error_is_retried :
  let run :=
    fetchWithBackoff half (fetch (always missing) someRequest) None None
      initial in
  fst run = inl exhausted
  /\ fst run <> inl (clientError missing)
  /\ attempts (events (snd run)) = 5%nat
  /\ map Qred (sleeps (events (snd run))) = [1500; 2500; 4500; 8500]%Q.
Proof.
  vm_compute. repeat split. discriminate.
Qed.


(** * The theorems at concrete inputs *)


(** Status 500 twice and then 200: the answer is returned after two
    sleeps and three requests. *)
Lemma success_returns_at_once_witness :
  exists t,
    fetchWithBackoff half (fetch flaky someRequest) (Some 5) (Some 1000)
      initial
    = (inr (answer wheatAnswer), mkWorld 3 2 (t ++ [EvFetch someRequest]))
    /\ attempts t = 2%nat /\ List.length (sleeps t) = 2%nat.
Proof.
  destruct (success_returns_at_once flaky half someRequest 5 1000 initial
              2%nat (answer wheatAnswer)) as [H _].
  - lia.
  - intros i Hi. destruct i as [| [| i]]; [reflexivity | reflexivity | lia].
  - reflexivity.
  - simpl. lia.
  - exact H.
Defined.

(** A budget of zero. *)
Lemma no_budget_fails_at_once_witness :
  fetchWithBackoff half (fetch (always unavailable) someRequest)
    (Some 0) None initial
  = (inl exhausted, initial).
Proof.
  apply (no_budget_fails_at_once half
           (fetch (always unavailable) someRequest) 0 None initial).
  lia.
Defined.

(** An object whose price is not a number is sent as it is. *)
Lemma parsed_slice_is_sent_unchecked_witness :
  fst (respondWithText (JSON_parse_std plainMessage) plainStringify plainFault
         (JStr (js "Sure: " ++ lbrace
                :: (quoted "price" ++ js ":" ++ quoted "n/a")
                ++ rbrace :: js " Done.")) initial)
  = inr (mkReply 200 (JObj [(js "price", JStr (js "n/a"))])).
Proof.
  destruct (parsed_slice_is_sent_unchecked (JSON_parse_std plainMessage)
              plainStringify plainFault (js "Sure: ")
              (quoted "price" ++ js ":" ++ quoted "n/a") (js " Done.")
              (JObj [(js "price", JStr (js "n/a"))]) initial) as [_ H].
  - cbn. intuition discriminate.
  - cbn. intuition discriminate.
  - vm_compute. reflexivity.
  - cbv zeta in H. rewrite H. reflexivity.
Defined.

(** A text without braces. *)
Lemma no_braces_no_object_witness :
  extractJson (JSON_parse_std plainMessage) plainFault
    (JStr (js "I could not find a price.")) initial
  = (inl notFound, initial).
Proof.
  destruct (no_braces_no_object (JSON_parse_std plainMessage) plainStringify
              plainFault (js "I could not find a price.") initial) as [H _].
  - left. cbn. intuition discriminate.
  - exact H.
Defined.

(** A slice between braces that is not JSON. *)
Lemma unparsable_slice_reports_failure_witness :
  extractJson (JSON_parse_std plainMessage) plainFault
    (JStr (js "{invalid json}")) initial
  = (inl (mkError ESyntaxError (js "Unexpected token")), initial).
Proof.
  destruct (unparsable_slice_reports_failure (JSON_parse_std plainMessage)
              plainStringify plainFault [] (js "invalid json") []
              (js "Unexpected token") initial) as [H _].
  - intros [].
  - intros [].
  - vm_compute. reflexivity.
  - exact H.
Defined.

(** The fenced answer on an engine whose stack holds one level of
    nesting, the depth of the object. *)
Lemma wheat_round_trip_witness :
  fst (respondWithText (JSON_parse_std plainMessage) (stackEngine 1)
         plainFault (JStr wheatAnswer) initial)
  = inr (mkReply 200 wheatResult).
Proof.
  destruct (wheat_round_trip plainMessage (stackEngine 1) plainFault)
    as (_ & _ & H).
  apply (H (js "[value]")). reflexivity.
Defined.

(** No credential: neither route reaches the network. *)
Lemma missing_key_short_circuits_witness :
  fetched (snd (getPrice flaky half (JSON_parse_std plainMessage)
                  plainStringify plainFault None (js "wheat") initial))
  = 0%nat
  /\ fetched (snd (getPriceIndex (fun _ => inr (Some (js "'25.5'")))
                     None (js "wheat") initial))
     = 0%nat.
Proof.
  destruct (missing_key_short_circuits flaky half
              (JSON_parse_std plainMessage) plainStringify plainFault
              (fun _ => inr (Some (js "'25.5'"))) None None None
              (js "wheat") initial) as [H1 H2].
  - reflexivity.
  - unfold getPrice. rewrite H1, H2. split; reflexivity.
Defined.

(** The whole route on the scenario of the specification: two failures
    with status 500, then the fenced answer.  The reply is the object of
    the four fields, after three requests and two sleeps. *)
Example flaky_upstream_end_to_end :
  let run :=
    getPrice flaky half (JSON_parse_std plainMessage) plainStringify
      plainFault (Some (js "secret")) (js "wheat") initial in
  fst run = inr (mkReply 200 wheatResult)
  /\ attempts (events (snd run)) = 3%nat
  /\ map Qred (sleeps (events (snd run))) = [1500; 2500]%Q.
Proof. vm_compute. repeat split. Qed.

(** Status 429 with a budget of one attempt: the only warning is the one
    of the [catch] block, about the client error. *)
Example too_many_requests_warns_client_error :
  events (snd (fetchWithBackoff half (fetch (always tooMany) someRequest)
                 (Some 1) None initial))
  = [EvFetch someRequest;
     EvConsole LWarn
       [JStr (js "Fetch attempt 1 failed with error: Client error: 429 Too Many Requests. Retrying...")]].
Proof. vm_compute. reflexivity. Qed.

(** What the model of [JSON.parse] accepts and rejects. *)
Example parse_wheat : JSON.parse wheatObject = Some wheatResult.
Proof. vm_compute. reflexivity. Qed.

Example parse_rejects_fence :
  JSON.parse wheatAnswer = None
  /\ JSON.parse (js "{invalid json}") = None
  /\ JSON.parse (js "[1,]") = None
  /\ JSON.parse (js "01") = None
  /\ JSON.parse (js "{} {}") = None.
Proof. vm_compute. repeat split. Qed.

Example parse_nested :
  JSON.parse (js " [ [ 1e2 , -0.5 ] , { } , true , null ] ")
  = Some (JArr [JArr [JNum 100; JNum (-1 # 2)]; JObj []; JBool true; JNull]).
Proof. vm_compute. reflexivity. Qed.

(** * Further properties of the resilient caller *)

Section CallerBounds.

Variable upstream : nat -> Error + Response.
Variable random : nat -> Q.
Variable req : Request.
Variables maxRetries baseDelay : Z.

#[local] Abbreviation rounds := (failedRounds upstream random req baseDelay).
#[local] Abbreviation loop :=
  (backoffLoop random (fetch upstream req) maxRetries baseDelay).

(** Every run of the loop is a number of failed rounds followed by one of
    three endings: the budget was empty from the start, a response was
    returned, or the last allowed attempt failed. *)
Lemma loop_shape (n : nat) : forall (attempt : Z) (w : World),
  (Z.to_nat (maxRetries - attempt) <= n)%nat ->
  exists k : nat,
    (maxRetries <= attempt /\ k = 0%nat /\ loop attempt w = (inl exhausted, w))
    \/ (attempt + Z.of_nat k < maxRetries
        /\ exists r, ok r = true
           /\ upstream (fetched w + k) = inr r
           /\ loop attempt w
              = (inr r,
                 mkWorld (fetched w + S k) (drawn w + k)
                   (events w ++ rounds k attempt (fetched w) (drawn w)
                    ++ [EvFetch req])))
    \/ (attempt + Z.of_nat k = maxRetries - 1
        /\ loop attempt w
           = (inl exhausted,
              mkWorld (fetched w + S k) (drawn w + k)
                (events w ++ rounds k attempt (fetched w) (drawn w)
                 ++ [EvFetch req;
                     EvConsole LWarn
                       [JStr (warningFor (maxRetries - 1)
                                (upstream (fetched w + k)))]]))).
Proof.
  induction n as [| n IH]; intros attempt w Hn.
  - exists 0%nat. left. repeat split; try lia.
    now rewrite backoffLoop_exit by lia.
  - destruct (Z_lt_dec attempt maxRetries) as [Hlt | Hge].
    2:{ exists 0%nat. left. repeat split; try lia.
        now rewrite backoffLoop_exit by lia. }
    destruct (failing (upstream (fetched w))) eqn:Hf.
    + destruct (Z.eq_dec attempt (maxRetries - 1)) as [He | Hne].
      * exists 0%nat. right. right. split; [lia |].
        rewrite loop_last by auto. simpl.
        rewrite !Nat.add_0_r. subst attempt.
        now rewrite Nat.add_1_r.
      * rewrite loop_round by (auto; lia).
        set (w1 := mkWorld (S (fetched w)) (S (drawn w)) _).
        destruct (IH (attempt + 1) w1) as (k & [H | [H | H]]); [lia | | |].
        -- lia.
        -- destruct H as (Hk & r & Hok & Hu & Hrun).
           exists (S k). right. left. split; [lia |].
           exists r. split; [exact Hok |]. split.
           ++ subst w1. simpl in Hu. now rewrite Nat.add_succ_r.
           ++ rewrite Hrun. subst w1. cbn [fetched drawn events failedRounds].
              rewrite <- !app_assoc. simpl.
              now rewrite !Nat.add_succ_r.
        -- destruct H as (Hk & Hrun).
           exists (S k). right. right. split; [lia |].
           rewrite Hrun. subst w1. cbn [fetched drawn events failedRounds].
           rewrite <- !app_assoc. simpl.
           now rewrite !Nat.add_succ_r.
    + destruct (upstream (fetched w)) as [e | r] eqn:Hu; [discriminate |].
      simpl in Hf. apply negb_false_iff in Hf.
      exists 0%nat. right. left. split; [lia |].
      exists r. split; [exact Hf |]. split.
      * now rewrite Nat.add_0_r.
      * rewrite (loop_ok upstream random req maxRetries baseDelay attempt w r)
          by auto.
        simpl. now rewrite Nat.add_0_r, Nat.add_1_r.
Qed.

(** The same, as a summary of the trace of a whole call: [k] failed
    rounds and a tail that holds at most one request and no sleep. *)
Lemma run_trace (w : World) :
  exists (k : nat) (tail : list Event),
    snd (loop 0 w)
    = mkWorld (fetched w + (k + attempts tail)) (drawn w + k)
        (events w ++ rounds k 0 (fetched w) (drawn w) ++ tail)
    /\ sleeps tail = []
    /\ (k + attempts tail <= Z.to_nat maxRetries)%nat
    /\ (Nat.min 1 (Z.to_nat maxRetries) <= k + attempts tail)%nat
    /\ (k = 0%nat /\ attempts tail = 0%nat \/ attempts tail = 1%nat)
    /\ (forall e, In e tail -> e = EvFetch req \/ is_console e = true).
Proof.
  destruct (loop_shape (Z.to_nat (maxRetries - 0)) 0 w (Nat.le_refl _))
    as (k & [H | [H | H]]).
  - destruct H as (Hm & Hk & Hrun). exists 0%nat, []. rewrite Hrun.
    change (attempts []) with 0%nat.
    split; [| split; [| split; [| split; [| split]]]].
    + destruct w as [f d t]. simpl. now rewrite !Nat.add_0_r, app_nil_r.
    + reflexivity.
    + lia.
    + lia.
    + left. now split.
    + intros e [].
  - destruct H as (Hk & r & Hok & Hu & Hrun).
    exists k, [EvFetch req]. rewrite Hrun.
    change (attempts [EvFetch req]) with 1%nat.
    split; [| split; [| split; [| split; [| split]]]].
    + simpl. now rewrite Nat.add_1_r.
    + reflexivity.
    + lia.
    + lia.
    + now right.
    + intros e [He | []]. now left.
  - destruct H as (Hk & Hrun).
    exists k, [EvFetch req;
               EvConsole LWarn
                 [JStr (warningFor (maxRetries - 1)
                          (upstream (fetched w + k)))]].
    rewrite Hrun.
    change (attempts [EvFetch req; EvConsole LWarn _]) with 1%nat.
    split; [| split; [| split; [| split; [| split]]]].
    + simpl. now rewrite Nat.add_1_r.
    + reflexivity.
    + lia.
    + lia.
    + now right.
    + intros e [He | [He | []]]; [now left | right; now subst].
Qed.

(** X1. Whatever the upstream answers, one call issues at most
    [maxRetries] requests and at least one when the budget is positive;
    it sleeps one time fewer than it issues requests, and calls
    [Math.random] once for each sleep. *)
Theorem requests_within_budget (w : World) :
  let run :=
    fetchWithBackoff random (fetch upstream req)
      (Some maxRetries) (Some baseDelay) w in
  exists t,
    added w (snd run) t
    /\ (attempts t <= Z.to_nat maxRetries)%nat
    /\ (Nat.min 1 (Z.to_nat maxRetries) <= attempts t)%nat
    /\ List.length (sleeps t) = pred (attempts t)
    /\ fetched (snd run) = (fetched w + attempts t)%nat
    /\ drawn (snd run) = (drawn w + List.length (sleeps t))%nat.
Proof.
  cbv zeta. unfold fetchWithBackoff, added.
  destruct (run_trace w) as (k & tail & Hrun & Hs & Hle & Hge & Hk & _).
  rewrite Hrun. cbn [fetched drawn events].
  exists (rounds k 0 (fetched w) (drawn w) ++ tail).
  rewrite attempts_app, sleeps_app, length_app, attempts_failedRounds,
    sleeps_failedRounds, Hs.
  change (List.length (@nil Q)) with 0%nat. rewrite Nat.add_0_r.
  split; [reflexivity |]. repeat split; [exact Hle | exact Hge |].
  destruct Hk as [[-> ->] | ->]; [reflexivity |].
  now rewrite Nat.add_1_r.
Qed.

Lemma sleeps_round (k : nat) (attempt : Z) (f d : nat) :
  sleeps (rounds (S k) attempt f d)
  = delayAt random baseDelay attempt d
    :: sleeps (rounds k (attempt + 1) (S f) (S d)).
Proof. reflexivity. Qed.



Lemma nth_error_map_seq {A} (g : nat -> A) (k : nat) :
  forall (start i : nat) (a : A),
  nth_error (map g (seq start k)) i = Some a ->
  a = g (start + i)%nat /\ (i < k)%nat.
Proof.
  induction k as [| k IH]; intros start i a H.
  - destruct i; discriminate.
  - destruct i as [| i]; simpl in H.
    + inversion H. rewrite Nat.add_0_r. split; [reflexivity | lia].
    + apply IH in H. destruct H as [-> Hi].
      rewrite Nat.add_succ_r. split; [reflexivity | lia].
Qed.

Lemma sleeps_rounds (k : nat) : forall (attempt : Z) (f d : nat),
  sleeps (rounds k attempt f d)
  = map (fun i => delayAt random baseDelay (attempt + Z.of_nat i) (d + i))
      (seq 0 k).
Proof.
  induction k as [| k IH]; intros attempt f d; [reflexivity |].
  rewrite sleeps_round, IH. cbn [seq map].
  rewrite Z.add_0_r, Nat.add_0_r. f_equal.
  rewrite <- seq_shift, map_map. apply map_ext. intro i.
  rewrite Nat.add_succ_r. f_equal. lia.
Qed.

(** X4. With a base delay of at least 1000, the default,
    [Math.random] in [0, 1) and the largest base term plus 1000 a double
    (at most 2^53), no sleep of a call is shorter than the one before
    it.  (It can be as long: see [sleeps_can_repeat].) *)
Theorem sleeps_never_shrink (w : World) :
  1000 <= baseDelay ->
  baseDelay * 2 ^ (maxRetries - 1) + 1000 <= 2 ^ 53 ->
  (forall n, (0 <= random n)%Q /\ (random n < 1)%Q) ->
  exists t,
    added w
      (snd (fetchWithBackoff random (fetch upstream req)
              (Some maxRetries) (Some baseDelay) w)) t
    /\ forall (i : nat) (a b : Q),
         nth_error (sleeps t) i = Some a ->
         nth_error (sleeps t) (S i) = Some b ->
         (a <= b)%Q.
Proof.
  intros Hb Hmax Hj. unfold fetchWithBackoff, added.
  destruct (run_trace w) as (k & tail & Hrun & Hs & Hle & _ & Hk & _).
  rewrite Hrun. cbn [events].
  exists (rounds k 0 (fetched w) (drawn w) ++ tail). split; [reflexivity |].
  rewrite sleeps_app, Hs, app_nil_r, sleeps_rounds.
  intros i a b Ha Hb'.
  apply nth_error_map_seq in Ha. apply nth_error_map_seq in Hb'.
  destruct Ha as [-> _]. destruct Hb' as [-> Hi].
  cbn [Nat.add]. rewrite !Z.add_0_l.
  assert (Hk' : Z.of_nat k <= maxRetries - 1) by (destruct Hk; lia).
  assert (Hp1 : 2 ^ Z.of_nat (S i) <= 2 ^ (maxRetries - 1))
    by (apply Z.pow_le_mono_r; lia).
  assert (Hp0 : 1 <= 2 ^ Z.of_nat i)
    by (apply Z.pow_le_mono_r with (b := 0); lia).
  assert (Hs2 : 2 ^ Z.of_nat (S i) = 2 * 2 ^ Z.of_nat i)
    by (rewrite Nat2Z.inj_succ, Z.pow_succ_r by lia; reflexivity).
  destruct (delay_range random baseDelay (Z.of_nat i) (drawn w + i)
              ltac:(lia) ltac:(lia) ltac:(nia) (Hj _)) as [_ Hup].
  destruct (delay_range random baseDelay (Z.of_nat (S i)) (drawn w + S i)
              ltac:(lia) ltac:(lia) ltac:(nia) (Hj _)) as [Hlow _].
  eapply Qle_trans; [exact Hup |]. eapply Qle_trans; [| exact Hlow].
  rewrite <- Zle_Qle. nia.
Qed.

End CallerBounds.

(** One iteration never throws: what the [try] block throws, the [catch]
    block absorbs. *)
Lemma iteration_never_throws (fetchFn : M Response) (attempt : Z)
  (w w' : World) (e : Error) :
  catch (attemptOnce fetchFn) (attemptFailed attempt) w <> (inl e, w').
Proof.
  unfold catch, attemptOnce, attemptFailed, bind, console, emit, ret, throw.
  destruct (fetchFn w) as [[e0 | resp] w0]; [discriminate |].
  destruct (ok resp); [discriminate |].
  destruct ((status resp >=? 400) && (status resp <? 500)); [discriminate |].
  destruct (status resp =? 429); discriminate.
Qed.

Lemma loop_throws_exhausted (random : nat -> Q) (fetchFn : M Response)
  (maxRetries baseDelay : Z) (n : nat) :
  forall (attempt : Z) (w w' : World) (e : Error),
  (Z.to_nat (maxRetries - attempt) <= n)%nat ->
  backoffLoop random fetchFn maxRetries baseDelay attempt w = (inl e, w') ->
  e = exhausted.
Proof.
  induction n as [| n IH]; intros attempt w w' e Hn.
  - rewrite backoffLoop_exit by lia. intro H. now inversion H.
  - destruct (Z_lt_dec attempt maxRetries) as [Hlt | Hge].
    2:{ rewrite backoffLoop_exit by lia. intro H. now inversion H. }
    rewrite backoffLoop_enter by lia. unfold bind at 1.
    destruct (catch (attemptOnce fetchFn) (attemptFailed attempt) w)
      as [[e0 | [r0 |]] w1] eqn:Hit.
    + now apply iteration_never_throws in Hit.
    + discriminate.
    + destruct (attempt =? maxRetries - 1); [intro H; now inversion H |].
      unfold bind, backoffDelay, Math_random, sleep, emit, ret. simpl.
      apply IH. lia.
Qed.

(** X2. For any request function and any policy a call ends in one of
    two ways only: it returns a response that is [ok], or it throws the
    error of exhausted retries.  The error of a rejected request and the
    client error of a 4xx response never reach the caller. *)
Theorem outcome_is_ok_or_exhausted
  (random : nat -> Q) (fetchFn : M Response)
  (maxRetries baseDelay : option Z) (w : World) :
  match fst (fetchWithBackoff random fetchFn maxRetries baseDelay w) with
  | inr r => ok r = true
  | inl e => e = exhausted
  end.
Proof.
  unfold fetchWithBackoff.
  destruct (backoffLoop random fetchFn _ _ 0 w) as [[e | r] w'] eqn:H; simpl.
  - eapply loop_throws_exhausted; [| exact H]. apply Nat.le_refl.
  - eapply loop_returns_ok; [| exact H]. apply Nat.le_refl.
Qed.

(** * Further properties of the response extractor *)

Section Splitting.

Context {A : Type} (p : A -> bool).

Lemma firstIndex_split (l : list A) :
  firstIndex p l <> -1 ->
  exists pre c rest,
    l = pre ++ c :: rest /\ p c = true
    /\ (forall x, In x pre -> p x = false)
    /\ firstIndex p l = Z.of_nat (List.length pre).
Proof.
  induction l as [| x l IH]; simpl; [congruence |].
  destruct (p x) eqn:Hx.
  - intros _. exists [], x, l. repeat split; auto. intros y [].
  - destruct (firstIndex p l =? -1) eqn:E; [congruence |].
    apply Z.eqb_neq in E. intros _.
    destruct (IH E) as (pre & c & rest & Hl & Hc & Hpre & Hi).
    exists (x :: pre), c, rest. subst l. repeat split; auto.
    + intros y [Hy | Hy]; [now subst | now apply Hpre].
    + rewrite Hi. simpl List.length. lia.
Qed.

Lemma lastIndex_split (l : list A) :
  lastIndex p l <> -1 ->
  exists front c post,
    l = front ++ c :: post /\ p c = true
    /\ (forall x, In x post -> p x = false)
    /\ lastIndex p l = Z.of_nat (List.length front).
Proof.
  induction l as [| x l IH]; simpl; [congruence |].
  destruct (lastIndex p l =? -1) eqn:E.
  - apply Z.eqb_eq in E. destruct (p x) eqn:Hx; [| congruence].
    intros _. exists [], x, l. repeat split; auto.
    clear IH. induction l as [| y l IHl]; [intros z [] |].
    simpl in E. destruct (lastIndex p l =? -1) eqn:E'.
    + apply Z.eqb_eq in E'. destruct (p y) eqn:Hy; [discriminate |].
      intros z [Hz | Hz]; [now subst | now apply IHl].
    + pose proof (lastIndex_lower p l). apply Z.eqb_neq in E'. lia.
  - apply Z.eqb_neq in E. intros _.
    destruct (IH E) as (front & c & post & Hl & Hc & Hpost & Hi).
    exists (x :: front), c, post. subst l. repeat split; auto.
    rewrite Hi. simpl List.length. lia.
Qed.

End Splitting.

(** A text that passes the guard of the extraction has an opening brace
    with a closing brace after it. *)
Lemma guard_decomposes (s : jsstring) :
  (indexOf s lbrace =? -1) || (lastIndexOf s rbrace =? -1)
  || (lastIndexOf s rbrace <? indexOf s lbrace) = false ->
  exists pre mid post,
    s = pre ++ lbrace :: mid ++ rbrace :: post
    /\ ~ In lbrace pre /\ ~ In rbrace post.
Proof.
  intro H. apply orb_false_iff in H. destruct H as [H Hlt].
  apply orb_false_iff in H. destruct H as [Hi Hj].
  apply Z.eqb_neq in Hi. apply Z.eqb_neq in Hj. apply Z.ltb_ge in Hlt.
  unfold indexOf, lastIndexOf in *.
  destruct (firstIndex_split _ _ Hi) as (pre & c & rest & Hs & Hc & Hpre & Ei).
  destruct (lastIndex_split _ _ Hj) as (front & c' & post & Hs' & Hc' & Hpost & Ej).
  apply N.eqb_eq in Hc. apply N.eqb_eq in Hc'. subst c c'.
  assert (Hn1 : ~ In lbrace pre).
  { intro Hin. apply Hpre in Hin. now rewrite N.eqb_refl in Hin. }
  assert (Hn2 : ~ In rbrace post).
  { intro Hin. apply Hpost in Hin. now rewrite N.eqb_refl in Hin. }
  rewrite Ei, Ej in Hlt.
  rewrite Hs in Hs'. apply app_eq_app in Hs'.
  destruct Hs' as (l & [[H1 H2] | [H1 H2]]).
  - assert (l = []).
    { destruct l; [reflexivity |]. subst pre. rewrite length_app in Hlt.
      simpl in Hlt. lia. }
    subst l. simpl in H2. inversion H2.
  - destruct l as [| x mid]; simpl in H2; [inversion H2 |].
    inversion H2; subst. exists pre, mid, post. repeat split; auto.
Qed.

Section MoreExtractorFacts.

Variable JSON_parse : jsstring -> jsstring + JSValue.
Variable describe : Fault -> jsstring.

Lemma brace_slice_or_not_found (s : jsstring) (w : World) :
  extractJson JSON_parse describe (JStr s) w = (inl notFound, w)
  \/ exists pre mid post,
       s = pre ++ lbrace :: mid ++ rbrace :: post
       /\ ~ In lbrace pre /\ ~ In rbrace post
       /\ extractJson JSON_parse describe (JStr s) w
          = parseOutcome JSON_parse (lbrace :: mid ++ [rbrace]) w.
Proof.
  unfold extractJson.
  destruct ((indexOf s lbrace =? -1) || (lastIndexOf s rbrace =? -1)
            || (lastIndexOf s rbrace <? indexOf s lbrace)) eqn:G.
  - now left.
  - right. destruct (guard_decomposes s G) as (pre & mid & post & Hs & H1 & H2).
    exists pre, mid, post. repeat split; auto.
    destruct (brace_slice pre mid post H1 H2) as (_ & _ & Hsl).
    cbv zeta in Hsl. rewrite <- Hs in Hsl. rewrite Hsl.
    unfold parseOutcome, ret, throw.
    destruct (JSON_parse (lbrace :: mid ++ [rbrace])); reflexivity.
Qed.

(** X5. [JSON.parse] is applied, if at all, to one text only: the part of
    the answer from its first opening brace to its last closing brace,
    which begins with a brace and ends with one.  Every other answer ends
    in the error of the object not found. *)
Theorem parse_sees_only_the_brace_slice (s : jsstring) (w : World) :
  extractJson JSON_parse describe (JStr s) w = (inl notFound, w)
  \/ exists pre mid post,
       s = pre ++ lbrace :: mid ++ rbrace :: post
       /\ ~ In lbrace pre /\ ~ In rbrace post
       /\ extractJson JSON_parse describe (JStr s) w
          = parseOutcome JSON_parse (lbrace :: mid ++ [rbrace]) w.
Proof. apply brace_slice_or_not_found. Qed.

(** The extraction has no effect of its own. *)
Lemma extractJson_pure (jsonText : JSValue) (w : World) :
  snd (extractJson JSON_parse describe jsonText w) = w.
Proof.
  unfold extractJson, ret, throw.
  destruct jsonText as [| | b | x | s | items | props]; try reflexivity.
  - destruct ((indexOf s lbrace =? -1) || (lastIndexOf s rbrace =? -1)
              || (lastIndexOf s rbrace <? indexOf s lbrace));
      [reflexivity |].
    destruct (JSON_parse _); reflexivity.
  - cbv zeta.
    match goal with |- snd ((if ?c then _ else _) _) = _ => destruct c end;
      reflexivity.
Qed.

(** A value comes out of the extraction only for a string, through
    [JSON.parse] on its brace slice. *)
Lemma extractJson_value_inv (jsonText v : JSValue) (w w' : World) :
  extractJson JSON_parse describe jsonText w = (inr v, w') ->
  exists pre mid post,
    jsonText = JStr (pre ++ lbrace :: mid ++ rbrace :: post)
    /\ JSON_parse (lbrace :: mid ++ [rbrace]) = inr v.
Proof.
  destruct jsonText as [| | b | x | s | items | props];
    try (unfold extractJson, throw; discriminate).
  - destruct (brace_slice_or_not_found s w) as [H | H].
    + rewrite H. discriminate.
    + destruct H as (pre & mid & post & Hs & _ & _ & He). rewrite He.
      unfold parseOutcome.
      destruct (JSON_parse (lbrace :: mid ++ [rbrace])) as [m | v0] eqn:Hp;
        [discriminate |].
      intro H. inversion H; subst. exists pre, mid, post. now split.
  - unfold extractJson, throw. cbv zeta.
    match goal with |- (if ?c then _ else _) _ = _ -> _ => destruct c end;
      discriminate.
Qed.

End MoreExtractorFacts.

(** * Properties of the route as a whole *)

Section RouteFacts.

Variable upstream : nat -> Error + Response.
Variable random : nat -> Q.
Variable JSON_parse : jsstring -> jsstring + JSValue.
Variable JSON_stringify : Z -> JSValue -> Error + jsstring.
Variable describe : Fault -> jsstring.
Variables maxRetries baseDelay : option Z.

#[local] Abbreviation route :=
  (getPriceWith upstream random JSON_parse JSON_stringify describe
     maxRetries baseDelay).
#[local] Abbreviation call key name w :=
  (fetchWithBackoff random (fetch upstream (requestOf key name))
     maxRetries baseDelay (announced name w)).
#[local] Abbreviation consoleOnly t :=
  (forall e : Event, In e t -> is_console e = true).

(** The branch for a text always replies, and only writes to the
    console: with 200 and the value [JSON.parse] gave for the brace slice
    of a string, a value [res.json] could serialise, or with 500. *)
Lemma respondWithText_replies (jsonText : JSValue) (w : World) :
  exists reply t,
    respondWithText JSON_parse JSON_stringify describe jsonText w
    = (inr reply, mkWorld (fetched w) (drawn w) (events w ++ t))
    /\ consoleOnly t
    /\ (reply = mkReply 500 (errorBody "Failed to parse AI response.")
        \/ exists pre mid post,
             jsonText = JStr (pre ++ lbrace :: mid ++ rbrace :: post)
             /\ JSON_parse (lbrace :: mid ++ [rbrace]) = inr (body reply)
             /\ code reply = 200
             /\ exists shown, JSON_stringify 0 (body reply) = inr shown).
Proof.
  set (w1 := mkWorld (fetched w) (drawn w)
               (events w
                ++ [EvConsole LLog
                      [JStr (js "AI Response (Raw JSON Text):"); jsonText]])).
  pose proof (extractJson_pure JSON_parse describe jsonText w1) as Hp.
  destruct (extractJson JSON_parse describe jsonText w1) as [[e | v] w2] eqn:He;
    simpl in Hp; subst w2.
  - eexists. eexists. split; [| split].
    + apply (respondWithText_failure JSON_parse JSON_stringify describe jsonText e w He).
    + intros x [Hx | [Hx | [Hx | []]]]; now subst.
    + now left.
  - rewrite (respondWithText_value JSON_parse JSON_stringify describe
               jsonText v w He).
    destruct (JSON_stringify 0 v) as [e | shown] eqn:Hs.
    + eexists. eexists. split; [reflexivity | split].
      * intros x [Hx | [Hx | [Hx | []]]]; now subst.
      * now left.
    + exists (mkReply 200 v). eexists. split; [reflexivity | split].
      * intros x [Hx | []]. now subst.
      * right. apply extractJson_value_inv in He.
        destruct He as (pre & mid & post & Ht & Hv).
        exists pre, mid, post. repeat split; auto. now exists shown.
Qed.

(** Every way through the route once the credential is there, by what
    the call of the upstream gave. *)
Lemma route_cases (key name : jsstring) (w : World) :
  key <> [] ->
  exists reply t,
    route (Some key) name w
    = (inr reply,
       mkWorld (fetched (snd (call key name w))) (drawn (snd (call key name w)))
         (events (snd (call key name w)) ++ t))
    /\ consoleOnly t
    /\ match fst (call key name w) with
       | inl e => reply = upstreamFailure e
       | inr r =>
           match json r with
           | inl e => reply = upstreamFailure e
           | inr result =>
               if nullish result
               then reply
                    = upstreamFailure
                        (typeError describe
                           (ReadOfNullish result (js "candidates")))
               else if truthy (candidateOf result)
                       && truthy (textOf (candidateOf result))
               then fst (respondWithText JSON_parse JSON_stringify describe
                           (textOf (candidateOf result))
                           (snd (call key name w)))
                    = inr reply
               else
                 match JSON_stringify 2 result with
                 | inr _ =>
                     reply
                     = mkReply 500
                         (errorBody
                            "AI service returned an invalid response.")
                 | inl e => reply = upstreamFailure e
                 end
           end
       end.
Proof.
  intro Hkey. destruct key as [| c key]; [congruence |].
  unfold getPriceWith. cbn [keyMissing]. cbv zeta.
  unfold catch at 1, bind at 1, console at 1, emit at 1.
  fold (announced name w). fold (requestOf (c :: key) name).
  unfold bind at 1.
  destruct (call (c :: key) name w) as [[e | r] w1] eqn:Hrun; cbn [fst snd].
  - eexists. eexists. split; [| split].
    + unfold bind, console, emit, ret. reflexivity.
    + intros x [Hx | []]. now subst.
    + reflexivity.
  - unfold bind at 1, settle.
    destruct (json r) as [e | result] eqn:Hj.
    { eexists. eexists. split; [| split].
      + unfold bind, console, emit, ret. reflexivity.
      + intros x [Hx | []]. now subst.
      + reflexivity. }
    unfold bind at 1, read.
    destruct (nullish result) eqn:Hn.
    { eexists. eexists. split; [| split].
      + unfold throw, bind, console, emit, ret. reflexivity.
      + intros x [Hx | []]. now subst.
      + reflexivity. }
    unfold ret at 1. fold (candidateOf result).
    destruct (truthy (candidateOf result)
              && truthy (textOf (candidateOf result))) eqn:Ht.
    + destruct (respondWithText_replies (textOf (candidateOf result)) w1)
        as (reply & t & Hr & Hc & _).
      exists reply, t. rewrite Hr. repeat split; auto.
    + unfold bind at 1, settle.
      destruct (JSON_stringify 2 result) as [e | shown].
      * eexists. eexists. split; [| split].
        -- unfold bind, console, emit, ret. reflexivity.
        -- intros x [Hx | []]. now subst.
        -- reflexivity.
      * eexists. eexists. split; [| split].
        -- unfold bind, console, emit, ret. reflexivity.
        -- intros x [Hx | []]. now subst.
        -- reflexivity.
Qed.

Lemma console_counts (t : list Event) :
  consoleOnly t -> attempts t = 0%nat /\ sleeps t = [].
Proof.
  induction t as [| e t IH]; intro H; [now split |].
  destruct IH as [Ha Hs]; [intros x Hx; apply H; now right |].
  assert (He : is_console e = true) by (apply H; now left).
  destruct e; try discriminate. unfold attempts in *. simpl. now split.
Qed.

Lemma rounds_events (req : Request) (bd : Z) (k : nat) :
  forall (attempt : Z) (f d : nat) (e : Event),
  In e (failedRounds upstream random req bd k attempt f d) ->
  e = EvFetch req \/ is_console e = true \/ is_fetch e = false.
Proof.
  induction k as [| k IH]; intros attempt f d e; [intros [] |].
  cbn [failedRounds]. intros [H | [H | [H | H]]]; subst; auto.
  eapply IH, H.
Qed.

(** X6. The route always answers, and always with status 200 or 500:
    no error of the upstream, of the body or of the extraction escapes
    the handler. *)
Theorem route_always_replies
  (key : option jsstring) (name : jsstring) (w : World) :
  exists reply,
    fst (route key name w) = inr reply
    /\ (code reply = 200 \/ code reply = 500).
Proof.
  destruct (keyMissing key) eqn:Hk.
  - unfold getPriceWith, catch. rewrite Hk.
    eexists. split; [reflexivity | now right].
  - destruct key as [[| c key] |]; try discriminate.
    destruct (route_cases (c :: key) name w) as (reply & t & Hr & _ & Hc);
      [discriminate |].
    rewrite Hr. exists reply. split; [reflexivity |].
    destruct (fst (call (c :: key) name w)) as [e | r]; [subst; now right |].
    destruct (json r) as [e | result]; [subst; now right |].
    destruct (nullish result); [subst; now right |].
    destruct (truthy (candidateOf result)
              && truthy (textOf (candidateOf result)));
      [| destruct (JSON_stringify 2 result); subst; now right].
    destruct (respondWithText_replies (textOf (candidateOf result))
                (snd (call (c :: key) name w)))
      as (reply' & t' & Hr' & _ & Hd).
    rewrite Hr' in Hc. inversion Hc; subst reply'.
    destruct Hd as [-> | (pre & mid & post & _ & _ & H200 & _)];
      [now right | now left].
Qed.

(** X7. A reply with status 200 has one origin only: the upstream call
    returned a response, its body held a candidate whose text is a
    string with an opening brace and a closing brace after it, and the
    body of the reply is what [JSON.parse] gave for the slice between
    them. *)
Theorem success_reply_is_parsed_slice
  (key : option jsstring) (name : jsstring) (w : World) (reply : Reply) :
  fst (route key name w) = inr reply ->
  code reply = 200 ->
  exists apiKey r result pre mid post,
    key = Some apiKey
    /\ fst (call apiKey name w) = inr r
    /\ json r = inr result
    /\ textOf (candidateOf result)
       = JStr (pre ++ lbrace :: mid ++ rbrace :: post)
    /\ JSON_parse (lbrace :: mid ++ [rbrace]) = inr (body reply).
Proof.
  intros Hr H200.
  destruct (keyMissing key) eqn:Hk.
  { unfold getPriceWith, catch in Hr. rewrite Hk in Hr.
    inversion Hr; subst. discriminate. }
  destruct key as [[| c key] |]; try discriminate.
  destruct (route_cases (c :: key) name w) as (reply0 & t & Hr0 & _ & Hc);
    [discriminate |].
  rewrite Hr0 in Hr. inversion Hr; subst reply0. clear Hr.
  exists (c :: key).
  destruct (fst (call (c :: key) name w)) as [e | r];
    [subst; discriminate |].
  destruct (json r) as [e | result] eqn:Hj; [subst; discriminate |].
  destruct (nullish result); [subst; discriminate |].
  destruct (truthy (candidateOf result)
            && truthy (textOf (candidateOf result)));
    [| destruct (JSON_stringify 2 result); subst; discriminate].
  destruct (respondWithText_replies (textOf (candidateOf result))
              (snd (call (c :: key) name w)))
    as (reply' & t' & Hr' & _ & Hd).
  rewrite Hr' in Hc. inversion Hc; subst reply'.
  destruct Hd as [-> | (pre & mid & post & Ht & Hv & _ & _)];
    [discriminate |].
  exists r, result, pre, mid, post. now repeat split.
Qed.

(** X8. Once the credential is there, one inbound request issues at
    least one upstream request when the budget is positive and never
    more than the budget, five by default, sleeps one time fewer than it
    issues requests, and sends the same request every time: the URL with
    the credential and the query with the name. *)
Theorem route_upstream_use (key name : jsstring) (w : World) :
  key <> [] ->
  exists t,
    added w (snd (route (Some key) name w)) t
    /\ (Nat.min 1 (Z.to_nat (budgetOf maxRetries)) <= attempts t)%nat
    /\ (attempts t <= Z.to_nat (budgetOf maxRetries))%nat
    /\ List.length (sleeps t) = pred (attempts t)
    /\ fetched (snd (route (Some key) name w)) = (fetched w + attempts t)%nat
    /\ (forall e, In e t -> is_fetch e = true ->
        e = EvFetch (requestOf key name)).
Proof.
  intro Hkey. unfold added.
  destruct (route_cases key name w Hkey) as (reply & t & Hr & Hc & _).
  rewrite Hr. cbn [snd fetched events]. unfold fetchWithBackoff.
  destruct (run_trace upstream random (requestOf key name)
              (budgetOf maxRetries)
              (match baseDelay with Some d => d | None => 1000 end)
              (announced name w))
    as (k & tail & Hrun & Hs & Hle & Hge & Hk & Ht).
  unfold budgetOf in *. rewrite Hrun. cbn [fetched events announced].
  destruct (console_counts t Hc) as [Ha0 Hs0].
  eexists. split; [rewrite <- !app_assoc; reflexivity |].
  rewrite !attempts_app, !sleeps_app, !length_app, attempts_failedRounds,
    sleeps_failedRounds, Hs, Ha0, Hs0.
  change (attempts [EvConsole LLog _]) with 0%nat.
  change (List.length (sleeps [EvConsole LLog _])) with 0%nat.
  change (List.length (@nil Q)) with 0%nat.
  rewrite !Nat.add_0_r, !Nat.add_0_l.
  split; [exact Hge |]. split; [exact Hle |]. split; [| split].
  - destruct Hk as [[-> ->] | ->]; [reflexivity | now rewrite Nat.add_1_r].
  - reflexivity.
  - intros e He Hf. rewrite !in_app_iff in He.
    destruct He as [[He | []] | [He | [He | He]]].
    + subst. discriminate.
    + apply rounds_events in He. destruct He as [He | [He | He]]; auto.
      * destruct e; discriminate.
      * congruence.
    + apply Ht in He. destruct He as [He | He]; auto.
      destruct e; discriminate.
    + apply Hc in He. destruct e; discriminate.
Qed.

(** The reply of the route when the upstream call returned a response
    whose body was read. *)
Lemma route_answered (key name : jsstring) (w : World) (r : Response)
  (result : JSValue) (reply : Reply) :
  key <> [] ->
  fst (call key name w) = inr r ->
  json r = inr result ->
  nullish result = false ->
  (if truthy (candidateOf result) && truthy (textOf (candidateOf result))
   then fst (respondWithText JSON_parse JSON_stringify describe
               (textOf (candidateOf result)) (snd (call key name w)))
        = inr reply
   else match JSON_stringify 2 result with
        | inr _ =>
            reply
            = mkReply 500
                (errorBody "AI service returned an invalid response.")
        | inl e => reply = upstreamFailure e
        end) ->
  fst (route (Some key) name w) = inr reply.
Proof.
  intros Hkey Hcall Hj Hn Hreply.
  destruct (route_cases key name w Hkey) as (reply0 & t & Hr & _ & Hc).
  rewrite Hr. cbn [fst]. f_equal.
  rewrite Hcall, Hj, Hn in Hc.
  destruct (truthy (candidateOf result)
            && truthy (textOf (candidateOf result))); [congruence |].
  destruct (JSON_stringify 2 result); congruence.
Qed.

(** X9. When every attempt fails, be it by a rejected request, a server
    error or a client error, the route answers 500 with the message of
    the exhausted retries as details, after as many upstream requests as
    the budget allows. *)
Theorem failing_upstream_gives_500 (key name : jsstring) (w : World) :
  key <> [] ->
  1 <= budgetOf maxRetries ->
  (forall n, failing (upstream n) = true) ->
  fst (route (Some key) name w) = inr (upstreamFailure exhausted)
  /\ fetched (snd (route (Some key) name w))
     = (fetched w + Z.to_nat (budgetOf maxRetries))%nat.
Proof.
  intros Hkey Hm Hf.
  destruct (route_cases key name w Hkey) as (reply & t & Hr & _ & Hc).
  rewrite Hr. cbn [fst snd fetched].
  unfold fetchWithBackoff in *. unfold budgetOf in *.
  rewrite loop_exhausts in * by auto.
  cbn [fst snd fetched announced] in *. subst reply. now split.
Qed.

(** X10. A body that gives no text is an invalid response, not a parse
    failure, whatever [JSON.parse] would do: when the candidate is
    missing or falsy, or its text is missing, empty or otherwise falsy,
    the route shows the body on the error console and answers 500 with
    the message of the invalid response.  The body is shown as
    [JSON.stringify] gives it with an indentation of 2; when that throws,
    the outer [catch] answers instead, 500 with the message of what was
    thrown as details. *)
Theorem missing_text_is_invalid_response
  (key name : jsstring) (w : World) (r : Response) (result : JSValue) :
  key <> [] ->
  fst (call key name w) = inr r ->
  json r = inr result ->
  nullish result = false ->
  truthy (candidateOf result) && truthy (textOf (candidateOf result)) = false ->
  fst (route (Some key) name w)
  = inr (match JSON_stringify 2 result with
         | inr _ =>
             mkReply 500
               (errorBody "AI service returned an invalid response.")
         | inl e => upstreamFailure e
         end).
Proof.
  intros Hkey Hcall Hj Hn Ht.
  apply (route_answered key name w r result); auto. rewrite Ht.
  now destruct (JSON_stringify 2 result).
Qed.

(** X11. Caller and extractor composed: when the upstream call returns
    a response whose body is the envelope around a text with an opening
    brace and a closing brace after it, the route answers 200 with the
    value of [JSON.parse] on the slice if it accepts it and [res.json]
    can serialise the value, and 500 with the message of the parse
    failure if [JSON.parse] rejects the slice or [res.json] throws. *)
Theorem route_end_to_end
  (key name : jsstring) (w : World) (r : Response) (pre mid post : jsstring) :
  key <> [] ->
  fst (call key name w) = inr r ->
  json r = inr (envelope (JStr (pre ++ lbrace :: mid ++ rbrace :: post))) ->
  ~ In lbrace pre -> ~ In rbrace post ->
  fst (route (Some key) name w)
  = inr (match JSON_parse (lbrace :: mid ++ [rbrace]) with
         | inr v =>
             match JSON_stringify 0 v with
             | inr _ => mkReply 200 v
             | inl _ => mkReply 500 (errorBody "Failed to parse AI response.")
             end
         | inl _ => mkReply 500 (errorBody "Failed to parse AI response.")
         end).
Proof.
  intros Hkey Hcall Hj Hpre Hpost.
  set (text := pre ++ lbrace :: mid ++ rbrace :: post) in *.
  assert (Hc : textOf (candidateOf (envelope (JStr text))) = JStr text)
    by reflexivity.
  assert (Ht : truthy (candidateOf (envelope (JStr text)))
               && truthy (textOf (candidateOf (envelope (JStr text))))
               = true).
  { rewrite Hc. subst text. destruct pre; reflexivity. }
  apply (route_answered key name w r (envelope (JStr text))); auto.
  rewrite Ht, Hc.
  set (w1 := snd (call key name w)).
  pose proof (extractJson_slice JSON_parse describe pre mid post
                (mkWorld (fetched w1) (drawn w1)
                   (events w1
                    ++ [EvConsole LLog
                          [JStr (js "AI Response (Raw JSON Text):");
                           JStr text]])) Hpre Hpost) as He.
  fold text in He. unfold parseOutcome in He.
  destruct (JSON_parse (lbrace :: mid ++ [rbrace])) as [m | v] eqn:Hp.
  - now rewrite (respondWithText_failure JSON_parse JSON_stringify describe
                   (JStr text) (mkError ESyntaxError m) w1 He).
  - rewrite (respondWithText_value JSON_parse JSON_stringify describe
               (JStr text) v w1 He).
    now destruct (JSON_stringify 0 v).
Qed.

(** X12. A text that is truthy but not a string (a number, [true], an
    array, an object) never reaches [JSON.parse]: the route answers 500
    with the message of the parse failure. *)
Theorem text_of_other_type_fails_to_parse
  (key name : jsstring) (w : World) (r : Response) (text : JSValue) :
  key <> [] ->
  fst (call key name w) = inr r ->
  json r = inr (envelope text) ->
  truthy text = true ->
  notString text ->
  fst (route (Some key) name w)
  = inr (mkReply 500 (errorBody "Failed to parse AI response.")).
Proof.
  intros Hkey Hcall Hj Ht Hns.
  assert (Hc : textOf (candidateOf (envelope text)) = text) by reflexivity.
  apply (route_answered key name w r (envelope text)); auto.
  rewrite Hc, Ht. cbn [andb truthy candidateOf].
  replace (truthy (candidateOf (envelope text))) with true by reflexivity.
  destruct (respondWithText_replies text (snd (call key name w)))
    as (reply & t & Hr & _ & Hd).
  rewrite Hr. cbn [fst]. f_equal.
  destruct Hd as [-> | (pre & mid & post & Htext & _)]; [reflexivity |].
  subst text. contradiction.
Qed.

(** X13. A body that cannot be read as JSON, or that is [null], makes
    the route answer 500 with the message of that error as details: the
    error of [response.json()], or the TypeError of reading
    [candidates] of null. *)
Theorem unreadable_body_gives_500
  (key name : jsstring) (w : World) (r : Response) (e : Error) :
  key <> [] ->
  fst (call key name w) = inr r ->
  json r = inl e
  \/ (json r = inr JNull
      /\ e = typeError describe (ReadOfNullish JNull (js "candidates"))) ->
  fst (route (Some key) name w) = inr (upstreamFailure e).
Proof.
  intros Hkey Hcall Hj.
  destruct (route_cases key name w Hkey) as (reply & t & Hr & _ & Hc).
  rewrite Hr. cbn [fst]. f_equal. rewrite Hcall in Hc.
  destruct Hj as [Hj | [Hj ->]]; rewrite Hj in Hc; exact Hc.
Qed.

End RouteFacts.

(** * Properties of the route of [index.js] *)

(** X14. Once the credential is there, the route of [index.js] calls the
    SDK exactly once, with the prompt built from the name, and never
    sleeps or tries again: it answers 200 when the call resolves, with an
    empty object when the response has no text, and 500 with the message
    of the error when the call rejects. *)
Theorem index_route_calls_once
  (genai : nat -> Error + option jsstring)
  (key name : jsstring) (w : World) :
  key <> [] ->
  exists line,
    getPriceIndex genai (Some key) name w
    = (inr (match genai (fetched w) with
            | inr (Some text) =>
                mkReply 200 (JObj [(js "explanation", JStr text)])
            | inr None => mkReply 200 (JObj [])
            | inl e => upstreamFailure e
            end),
       mkWorld (S (fetched w)) (drawn w)
         (events w
          ++ [EvGenerate (js "gemini-2.5-flash") (promptFor name);
              EvConsole (match genai (fetched w) with
                         | inl _ => LError
                         | inr _ => LLog
                         end) line])).
Proof.
  intro Hkey. destruct key as [| c key]; [congruence |].
  unfold getPriceIndex. cbn [keyMissing].
  unfold catch, bind, generateContent, console, emit, ret.
  destruct (genai (fetched w)) as [e | [text |]];
    eexists; cbn [events fetched drawn]; rewrite <- app_assoc; reflexivity.
Qed.

(** * The further properties at concrete inputs *)


Lemma sleeps_never_shrink_witness :
  exists t,
    added initial
      (snd (fetchWithBackoff half (fetch unreachable someRequest)
              (Some 5) (Some 1000) initial)) t
    /\ forall (i : nat) (a b : Q),
         nth_error (sleeps t) i = Some a ->
         nth_error (sleeps t) (S i) = Some b ->
         (a <= b)%Q.
Proof.
  refine (sleeps_never_shrink unreachable half someRequest 5 1000 initial
            _ _ _).
  - lia.
  - simpl. lia.
  - intro n. split; unfold half; lra.
Defined.

(** With [Math.random] returning [1 - 2^-53] and then 0, the first two
    sleeps of the default policy both last 2000: the first sum lies
    halfway between two doubles and rounds up to the even one. *)
Example sleeps_can_repeat :
  sleeps (events (snd (fetchWithBackoff highThenZero
                         (fetch unreachable someRequest)
                         (Some 3) (Some 1000) initial)))
  = [2000; 2000]%Q.
Proof. vm_compute. reflexivity. Qed.

(** The bound on the time slept needs the base terms to be doubles with
    room for the jitter.  With a base delay of 2^62 neighbouring doubles
    are 1024 apart: a jitter of 750 takes the sum past the half and the
    delay is rounded up to 2^62 + 1024, more than the base delay plus
    1000. *)
Example huge_base_delay_overshoots :
  let slept :=
    sleeps (events (snd (fetchWithBackoff (fun _ => 3 # 4)
                           (fetch unreachable someRequest)
                           (Some 2) (Some (2 ^ 62)) initial))) in
  slept = [inject_Z (2 ^ 62 + 1024)]
  /\ ~ (total slept
        <= inject_Z (2 ^ 62 * (2 ^ (2 - 1) - 1) + 1000 * (2 - 1)))%Q.
Proof.
  vm_compute. split; [reflexivity |]. intro H. apply H. reflexivity.
Qed.

(** The rounding of the model and the reference implementation of the
    Standard Library agree on the sums above and on a few other
    numbers. *)
Example binary64_agrees_with_reference :
  Double.valueOf
    (SFadd 53 1024 (Double.ofZ 1000)
       (SFmul 53 1024
          (SFdiv 53 1024 (Double.ofZ (2 ^ 53 - 1)) (Double.ofZ (2 ^ 53)))
          (Double.ofZ 1000)))
  = Double.binary64 (1000 + Double.binary64 (highThenZero 0 * 1000))
  /\ Double.valueOf (SFdiv 53 1024 (Double.ofZ 1) (Double.ofZ 10))
     = Double.binary64 (1 # 10)
  /\ Double.valueOf (SFdiv 53 1024 (Double.ofZ (-7)) (Double.ofZ 3))
     = Double.binary64 (-7 # 3)
  /\ Double.valueOf (Double.ofZ (2 ^ 53 + 3))
     = Double.binary64 (inject_Z (2 ^ 53 + 3))
  /\ Double.valueOf
       (SFdiv 53 1024 (Double.ofZ 3) (Double.ofZ (2 ^ 1000)))
     = Double.binary64 (3 # Z.to_pos (2 ^ 1000)).
Proof. vm_compute. repeat split. Qed.

Lemma success_reply_is_parsed_slice_witness :
  exists apiKey r result pre mid post,
    Some (js "secret") = Some apiKey
    /\ fst (fetchWithBackoff half (fetch flaky (requestOf apiKey (js "wheat")))
              None None (announced (js "wheat") initial)) = inr r
    /\ json r = inr result
    /\ textOf (candidateOf result)
       = JStr (pre ++ lbrace :: mid ++ rbrace :: post)
    /\ JSON_parse_std plainMessage (lbrace :: mid ++ [rbrace])
       = inr (body (mkReply 200 wheatResult)).
Proof.
  refine (success_reply_is_parsed_slice flaky half
            (JSON_parse_std plainMessage) plainStringify plainFault None None
            (Some (js "secret")) (js "wheat") initial
            (mkReply 200 wheatResult) _ _).
  - vm_compute. reflexivity.
  - reflexivity.
Defined.

Lemma route_upstream_use_witness :
  exists t,
    added initial
      (snd (getPrice flaky half (JSON_parse_std plainMessage) plainStringify
              plainFault (Some (js "secret")) (js "wheat") initial)) t
    /\ (attempts t <= 5)%nat.
Proof.
  destruct (route_upstream_use flaky half (JSON_parse_std plainMessage)
              plainStringify plainFault None None (js "secret") (js "wheat")
              initial) as (t & Ha & _ & Hle & _).
  - discriminate.
  - exists t. split; [exact Ha | exact Hle].
Defined.

Lemma failing_upstream_gives_500_witness :
  fst (getPrice (always missing) half (JSON_parse_std plainMessage)
         plainStringify plainFault (Some (js "secret")) (js "wheat") initial)
  = inr (upstreamFailure exhausted)
  /\ fetched (snd (getPrice (always missing) half
                     (JSON_parse_std plainMessage) plainStringify plainFault
                     (Some (js "secret")) (js "wheat") initial))
     = 5%nat.
Proof.
  refine (failing_upstream_gives_500 (always missing) half
            (JSON_parse_std plainMessage) plainStringify plainFault None None
            (js "secret") (js "wheat") initial _ _ _).
  - discriminate.
  - simpl. lia.
  - intro n. reflexivity.
Defined.

Lemma missing_text_is_invalid_response_witness :
  fst (getPrice (answering (inr (envelope (JStr [])))) half
         (JSON_parse_std plainMessage) plainStringify plainFault
         (Some (js "secret")) (js "wheat") initial)
  = inr (mkReply 500 (errorBody "AI service returned an invalid response.")).
Proof.
  refine (missing_text_is_invalid_response
            (answering (inr (envelope (JStr [])))) half
            (JSON_parse_std plainMessage) plainStringify plainFault None None
            (js "secret") (js "wheat") initial
            (mkResponse 200 (js "OK") (inr (envelope (JStr []))))
            (envelope (JStr [])) _ _ _ _ _).
  - discriminate.
  - vm_compute. reflexivity.
  - reflexivity.
  - reflexivity.
  - reflexivity.
Defined.

Lemma route_end_to_end_witness :
  fst (getPrice flaky half (JSON_parse_std plainMessage) plainStringify
         plainFault (Some (js "secret")) (js "wheat") initial)
  = inr (mkReply 200 wheatResult).
Proof.
  refine (route_end_to_end flaky half (JSON_parse_std plainMessage)
            plainStringify plainFault None None (js "secret") (js "wheat")
            initial (answer wheatAnswer)
            (js "Here is the data: ```json" ++ newline) wheatInside
            (newline ++ js "```") _ _ _ _ _).
  - discriminate.
  - vm_compute. reflexivity.
  - reflexivity.
  - cbn. intuition discriminate.
  - cbn. intuition discriminate.
Defined.

Lemma text_of_other_type_fails_to_parse_witness :
  fst (getPrice (answering (inr (envelope (JNum 42)))) half
         (JSON_parse_std plainMessage) plainStringify plainFault
         (Some (js "secret")) (js "wheat") initial)
  = inr (mkReply 500 (errorBody "Failed to parse AI response.")).
Proof.
  refine (text_of_other_type_fails_to_parse
            (answering (inr (envelope (JNum 42)))) half
            (JSON_parse_std plainMessage) plainStringify plainFault None None
            (js "secret") (js "wheat") initial
            (mkResponse 200 (js "OK") (inr (envelope (JNum 42))))
            (JNum 42) _ _ _ _ _).
  - discriminate.
  - vm_compute. reflexivity.
  - reflexivity.
  - reflexivity.
  - exact I.
Defined.

Lemma unreadable_body_gives_500_witness :
  fst (getPrice (answering (inl truncatedBody)) half
         (JSON_parse_std plainMessage) plainStringify plainFault
         (Some (js "secret")) (js "wheat") initial)
  = inr (upstreamFailure truncatedBody).
Proof.
  refine (unreadable_body_gives_500 (answering (inl truncatedBody)) half
            (JSON_parse_std plainMessage) plainStringify plainFault None None
            (js "secret") (js "wheat") initial
            (mkResponse 200 (js "OK") (inl truncatedBody)) truncatedBody
            _ _ _).
  - discriminate.
  - vm_compute. reflexivity.
  - left. reflexivity.
Defined.

Lemma index_route_calls_once_witness :
  fst (getPriceIndex (fun _ => inr None) (Some (js "secret")) (js "wheat")
         initial)
  = inr (mkReply 200 (JObj [])).
Proof.
  destruct (index_route_calls_once (fun _ => inr None) (js "secret")
              (js "wheat") initial) as (line & H).
  - discriminate.
  - rewrite H. reflexivity.
Defined.

(** The two places where the route serialises a value of the upstream, on
    an engine whose stack holds a hundred levels.  An answer one level
    deeper is parsed and then refused by [res.json]: the reply is the one
    of a parse failure.  A body without candidates that is one level
    deeper cannot be shown on the console: the reply is the one of the
    outer [catch], not the one of the invalid response. *)
Example deep_answer_end_to_end :
  let run :=
    getPrice (answering (inr (envelope (JStr (deepAnswer 100))))) half
      (JSON_parse_std plainMessage) (stackEngine 100) plainFault
      (Some (js "secret")) (js "wheat") initial in
  JSON.parse (deepAnswer 100) = Some (deepValue 100)
  /\ fst run = inr (mkReply 500 (errorBody "Failed to parse AI response."))
  /\ attempts (events (snd run)) = 1%nat.
Proof. vm_compute. repeat split. Qed.

Example deep_body_reaches_outer_catch :
  let run :=
    getPrice (answering (inr (deepValue 100))) half
      (JSON_parse_std plainMessage) (stackEngine 100) plainFault
      (Some (js "secret")) (js "wheat") initial in
  fst run = inr (upstreamFailure stackOverflow)
  /\ fst run
     <> inr (mkReply 500
               (errorBody "AI service returned an invalid response."))
  /\ last (events (snd run)) (EvFetch someRequest)
     = EvConsole LError
         [JStr (js "Gemini API Error:");
          JStr (js "Maximum call stack size exceeded")].
Proof. vm_compute. repeat split. discriminate. Qed.
